(** * lib/pool.js: the connection pool of jdbc-altibase

    A shallow embedding of [lib/pool.js].  The pool keeps two JavaScript
    arrays, [_pool] (available) and [_reserved], of connection objects
    [{uuid, conn, keepalive, lastIdle}].  The collaborators the file calls
    ([dm.getConnectionSync], [uuid.v4], [Math.random], [Connection.close],
    [new Date().getTime()]) are not part of it: their results are read from an
    environment [Env] and from the clock kept in [World], so every theorem
    holds whatever they answer. *)

From stdpp Require Import base list strings.
From Stdlib Require Import ZArith Lia.

Local Open Scope Z_scope.

(** ** JavaScript values *)

(** Primitive values that can sit in the [uuid] property of an object.
    Numbers are integers here (no NaN, no fractions). *)
Inductive prim :=
  | PUndefined
  | PNull
  | PBool (b : bool)
  | PNum (n : Z)
  | PStr (s : string).

#[global] Instance prim_eq_dec : EqDecision prim.
Proof. solve_decision. Defined.

(** The underlying java connection the driver manager returned. *)
Definition handle := nat.

(** The [conn] property of an object: absent (reads as [undefined]; this also
    stands for any value that has no callable [close]), [null], or a
    [Connection] wrapper around a java connection. *)
Inductive connref :=
  | ConnUndefined
  | ConnNull
  | ConnObj (h : handle).

#[global] Instance connref_eq_dec : EqDecision connref.
Proof. solve_decision. Defined.

(** An object as the pool sees it: the four properties the pool reads or
    writes.  [keepalive] is [true] when [setInterval] installed a timer and
    [false] for the literal [false]; [lastIdle] is [None] when the property is
    absent. *)
Record connobj := ConnObject {
  uuid : prim;
  conn : connref;
  keepalive : bool;
  lastIdle : option Z
}.

#[global] Instance connobj_eq_dec : EqDecision connobj.
Proof. solve_decision. Defined.

(** What a caller can pass to [release]. *)
Inductive value :=
  | VPrim (p : prim)
  | VFunction
  | VObject (o : connobj).

(** [typeof v]. *)
Definition typeof (v : value) : string :=
  match v with
  | VPrim PUndefined => "undefined"
  | VPrim PNull => "object"
  | VPrim (PBool _) => "boolean"
  | VPrim (PNum _) => "number"
  | VPrim (PStr _) => "string"
  | VFunction => "function"
  | VObject _ => "object"
  end.

(** [a === b] on primitives. *)
Definition strict_eq (a b : prim) : bool := bool_decide (a = b).

(** Truthiness of an optional number ([undefined] and [null] are [None]). *)
Definition truthy (n : option Z) : bool :=
  match n with
  | Some z => negb (z =? 0)
  | None => false
  end.

(** [x < y] where [x] may be [undefined]: comparing [undefined] is false. *)
Definition js_lt (x : option Z) (y : Z) : bool :=
  match x with
  | Some t => t <? y
  | None => false
  end.

(** ** Errors, environment, state *)

Inductive error :=
  | Error (msg : string)          (* new Error(msg) *)
  | TypeError                     (* property read or call on undefined/null *)
  | ConnectError (call : nat)     (* thrown by dm.getConnectionSync *)
  | CloseError (h : handle)       (* passed by Connection.close to its callback *)
  | DriverError                   (* java.newInstance / dm.registerDriver *)
  | RangeError.                   (* an array of negative length *)

#[global] Instance error_eq_dec : EqDecision error.
Proof. solve_decision. Defined.

(** How [Connection.close(cb)] ends: [cb(null)], or [cb(err)] called before
    [close] returns, or [cb(err)] called from a later turn of the event
    loop. *)
Inductive close_outcome :=
  | Closed
  | FailsNow
  | FailsLater.

Record Env := {
  getConnection : nat -> option handle; (* n-th call of the driver manager; None: it fails *)
  uuid_v4 : nat -> string;              (* n-th call of uuid.v4() *)
  random : nat -> nat;                  (* n-th call of Math.random(), before scaling *)
  close_result : nat -> handle -> close_outcome; (* n-th close attempt *)
  driver_ok : bool                      (* java.newInstance and dm.registerDriver succeed *)
}.

Record keepalive_cfg := {
  ka_interval : Z;
  ka_query : string;
  ka_enabled : bool
}.

(** The [config] object given to the constructor ([url], [properties],
    [user], [password] and [logging] are only handed on to the driver and to
    winston). *)
Record Config := {
  cfg_drivername : string;
  cfg_minpoolsize : option Z;
  cfg_maxpoolsize : option Z;
  cfg_keepalive : option keepalive_cfg;
  cfg_maxidle : option Z
}.

Record Pool := {
  _drivername : string;
  _minpoolsize : Z;
  _maxpoolsize : Z;
  _keepalive : keepalive_cfg;
  _maxidle : option Z;
  _pool : list connobj;
  _reserved : list connobj
}.

(** Everything outside the pool object that the operations read or change. *)
Record World := {
  now : Z;                 (* what new Date().getTime() returns *)
  opened : nat;            (* calls of the driver manager so far *)
  drawn : nat;             (* calls of uuid.v4() so far *)
  rolls : nat;             (* calls of Math.random() so far *)
  closes : list handle;    (* close attempts, oldest first *)
  uncaught : list error    (* exceptions thrown from later turns *)
}.

Definition bump_opened (w : World) : World :=
  {| now := now w; opened := S (opened w); drawn := drawn w; rolls := rolls w;
     closes := closes w; uncaught := uncaught w |}.

Definition bump_drawn (w : World) : World :=
  {| now := now w; opened := opened w; drawn := S (drawn w); rolls := rolls w;
     closes := closes w; uncaught := uncaught w |}.

Definition bump_rolls (w : World) : World :=
  {| now := now w; opened := opened w; drawn := drawn w; rolls := S (rolls w);
     closes := closes w; uncaught := uncaught w |}.

Definition log_close (h : handle) (w : World) : World :=
  {| now := now w; opened := opened w; drawn := drawn w; rolls := rolls w;
     closes := closes w ++ [h]; uncaught := uncaught w |}.

Definition log_uncaught (e : error) (w : World) : World :=
  {| now := now w; opened := opened w; drawn := drawn w; rolls := rolls w;
     closes := closes w; uncaught := uncaught w ++ [e] |}.

Definition advance (ms : Z) (w : World) : World :=
  {| now := now w + ms; opened := opened w; drawn := drawn w; rolls := rolls w;
     closes := closes w; uncaught := uncaught w |}.

Definition State : Type := Pool * World.

Definition set_pool (l : list connobj) (p : Pool) : Pool :=
  {| _drivername := _drivername p; _minpoolsize := _minpoolsize p;
     _maxpoolsize := _maxpoolsize p; _keepalive := _keepalive p;
     _maxidle := _maxidle p; _pool := l; _reserved := _reserved p |}.

Definition set_reserved (l : list connobj) (p : Pool) : Pool :=
  {| _drivername := _drivername p; _minpoolsize := _minpoolsize p;
     _maxpoolsize := _maxpoolsize p; _keepalive := _keepalive p;
     _maxidle := _maxidle p; _pool := _pool p; _reserved := l |}.

(** ** A state monad with exceptions *)

Inductive result (A : Type) :=
  | Done (a : A)
  | Throw (e : error).
Arguments Done {A} a.
Arguments Throw {A} e.

Definition M (A : Type) : Type := State -> result A * State.

#[global] Instance M_ret : MRet M := fun A a s => (Done a, s).
#[global] Instance M_bind : MBind M := fun A B f m s =>
  match m s with
  | (Done a, s') => f a s'
  | (Throw e, s') => (Throw e, s')
  end.

Definition throw {A} (e : error) : M A := fun s => (Throw e, s).
Definition getp : M Pool := fun s => (Done s.1, s).
Definition getw : M World := fun s => (Done s.2, s).
Definition modp (f : Pool -> Pool) : M unit := fun s => (Done tt, (f s.1, s.2)).
Definition modw (f : World -> World) : M unit := fun s => (Done tt, (s.1, f s.2)).

(** [try { m } catch (err) { h err }]. *)
Definition try_catch {A} (m : M A) (h : error -> M A) : M A := fun s =>
  match m s with
  | (Done a, s') => (Done a, s')
  | (Throw e, s') => h e s'
  end.

(** What an operation hands to its callback: [callback(err)] or
    [callback(null, a)]. *)
Inductive reply (A : Type) :=
  | CbErr (e : error)
  | CbOk (a : A).
Arguments CbErr {A} e.
Arguments CbOk {A} a.

Section WithEnv.

Variable E : Env.

(** ** Collaborators *)

(** [dm.getConnectionSync(url, props)]: returns a connection or throws. *)
Definition getConnectionSync : M handle :=
  w ← getw;
  modw bump_opened;;
  match getConnection E (opened w) with
  | Some h => mret h
  | None => throw (ConnectError (opened w))
  end.

(** [uuid.v4()]. *)
Definition uuid_next : M string :=
  w ← getw;
  modw bump_drawn;;
  mret (uuid_v4 E (drawn w)).

(** [new Date().getTime()]; the clock stands still during one call and moves
    between calls ([Tick] below). *)
Definition getTime : M Z := w ← getw; mret (now w).

(** [Math.floor(Math.random() * n)]: some index below [n]. *)
Definition random_below (n : nat) : M nat :=
  w ← getw;
  modw bump_rolls;;
  mret (random E (rolls w) `mod` n)%nat.

(** [c.close(cb)].  [rethrow] tells the two callbacks of the file apart: the
    one of [closeIdleConnectionsInArray] throws the error it is given, the one
    of [purge] ignores it.  A [conn] that is no [Connection] has no [close],
    and calling it throws a TypeError. *)
Definition close_conn (c : connref) (rethrow : bool) : M unit :=
  match c with
  | ConnObj h =>
      w ← getw;
      modw (log_close h);;
      match close_result E (length (closes w)) h with
      | Closed => mret tt
      | FailsNow => if rethrow then throw (CloseError h) else mret tt
      | FailsLater =>
          if rethrow then modw (log_uncaught (CloseError h)) else mret tt
      end
  | _ => throw TypeError
  end.

(** ** addConnectionSync (lines 48-61) *)

Definition addConnectionSync (ka : keepalive_cfg) (maxIdle : option Z) : M connobj :=
  c ← getConnectionSync;
  id ← uuid_next;
  if truthy maxIdle then
    t ← getTime;
    mret {| uuid := PStr id; conn := ConnObj c; keepalive := ka_enabled ka;
            lastIdle := Some t |}
  else
    mret {| uuid := PStr id; conn := ConnObj c; keepalive := ka_enabled ka;
            lastIdle := None |}.

(** ** The constructor (lines 63-101) *)

Definition default_keepalive : keepalive_cfg :=
  {| ka_interval := 60000; ka_query := "select 1"; ka_enabled := false |}.

Definition new_Pool (config : Config) : Pool :=
  let ka := default (default_keepalive) (cfg_keepalive config) in
  {| _drivername := cfg_drivername config;
     _minpoolsize := if truthy (cfg_minpoolsize config)
                     then default 1 (cfg_minpoolsize config) else 1;
     _maxpoolsize := if truthy (cfg_maxpoolsize config)
                     then default 1 (cfg_maxpoolsize config) else 1;
     _keepalive := ka;
     _maxidle := if negb (ka_enabled ka) && truthy (cfg_maxidle config)
                 then cfg_maxidle config else None;
     _pool := [];
     _reserved := [] |}.

(** ** Pool.prototype._addConnectionsOnInitialize, initialize (lines 28-46, 130-173) *)

(** [addConnection]: as [addConnectionSync], with the driver manager's error
    handed to the callback. *)
Definition addConnection (ka : keepalive_cfg) (maxIdle : option Z) : M (reply connobj) :=
  w ← getw;
  modw bump_opened;;
  match getConnection E (opened w) with
  | None => mret (CbErr (ConnectError (opened w)))
  | Some c =>
      id ← uuid_next;
      if truthy maxIdle then
        t ← getTime;
        mret (CbOk {| uuid := PStr id; conn := ConnObj c; keepalive := ka_enabled ka;
                      lastIdle := Some t |})
      else
        mret (CbOk {| uuid := PStr id; conn := ConnObj c; keepalive := ka_enabled ka;
                      lastIdle := None |})
  end.

(** The [n] runs of [iter] that [asyncjs.times(n, iter, final)] makes; [final]
    gets the first error, or the results in order. *)
Fixpoint times {A} (n : nat) (iter : M (reply A)) : M (reply (list A)) :=
  match n with
  | O => mret (CbOk [])
  | S k =>
      r ← iter;
      rs ← times k iter;
      mret match r, rs with
           | CbErr e, _ => CbErr e
           | CbOk _, CbErr e => CbErr e
           | CbOk a, CbOk l => CbOk (a :: l)
           end
  end.

(** [asyncjs.times(count, iter, final)]: the library first makes an array of
    [count] slots, which throws a RangeError when [count] is negative; nothing
    has run by then and [final] is never called. *)
Definition asyncjs_times {A} (count : Z) (iter : M (reply A)) : M (reply (list A)) :=
  if count <? 0 then throw RangeError else times (Z.to_nat count) iter.

Definition _addConnectionsOnInitialize : M (reply unit) :=
  p ← getp;
  r ← asyncjs_times (_minpoolsize p) (addConnection (_keepalive p) (_maxidle p));
  match r with
  | CbErr e => mret (CbErr e)
  | CbOk conns =>
      modp (fun p => set_pool (_pool p ++ conns) p);;
      mret (CbOk tt)
  end.

(** With a [drivername] the batch starts from the callback of
    [dm.registerDriver]; an exception of the batch then leaves through that
    callback instead of through [initialize]. *)
Definition initialize : M (reply unit) :=
  p ← getp;
  if bool_decide (_drivername p ≠ "") then
    if driver_ok E then _addConnectionsOnInitialize else mret (CbErr DriverError)
  else _addConnectionsOnInitialize.

(** ** closeIdleConnectionsInArray, _closeIdleConnections (lines 223-255) *)

(** [array.splice(i, 1)]; the array is always [self._pool]. *)
Definition splice_pool (i : nat) : M unit :=
  modp (fun p => set_pool (delete i (_pool p)) p).

(** The loop [for (i = array.length - 1; i >= 0; i--)], entered with
    [n = i + 1].  Reading past the end gives [undefined], which is skipped. *)
Fixpoint closeIdleLoop (n : nat) (maxLastIdle : Z) : M unit :=
  match n with
  | O => mret tt
  | S i =>
      p ← getp;
      match _pool p !! i with
      | Some c =>
          (if bool_decide (conn c ≠ ConnNull) then
             if js_lt (lastIdle c) maxLastIdle then
               close_conn (conn c) true;;
               splice_pool i
             else mret tt
           else mret tt);;
          closeIdleLoop i maxLastIdle
      | None => closeIdleLoop i maxLastIdle
      end
  end.

Definition closeIdleConnectionsInArray (maxIdle : Z) : M unit :=
  time ← getTime;
  let maxLastIdle := time - maxIdle in
  p ← getp;
  closeIdleLoop (length (_pool p)) maxLastIdle.

Definition _closeIdleConnections : M unit :=
  p ← getp;
  match _maxidle p with
  | Some m => if truthy (Some m) then closeIdleConnectionsInArray m else mret tt
  | None => mret tt
  end.

(** ** shuffle (lines 301-311) *)

(** The three assignments that exchange [array[i]] and [array[j]]. *)
Definition swap_pool (i j : nat) : M unit :=
  modp (fun p =>
    match _pool p !! i, _pool p !! j with
    | Some x, Some y => set_pool (<[j := x]> (<[i := y]> (_pool p))) p
    | _, _ => p
    end).

(** The loop [for (index = array.length - 1; index > 0; index--)]. *)
Fixpoint shuffleLoop (index : nat) : M unit :=
  match index with
  | O => mret tt
  | S i =>
      randomPosition ← random_below (S index);
      swap_pool index randomPosition;;
      shuffleLoop i
  end.

Definition shuffle : M unit :=
  p ← getp;
  shuffleLoop (length (_pool p) - 1)%nat.

(** ** reserve (lines 175-221) *)

(** The top-up loop [for (let i = 0; i < times; i++)]. *)
Fixpoint topUp (times : nat) : M unit :=
  match times with
  | O => mret tt
  | S n =>
      p ← getp;
      c ← addConnectionSync (_keepalive p) (_maxidle p);
      modp (fun p => set_pool (c :: _pool p) p);;
      topUp n
  end.

Definition reserve : M (reply connobj) :=
  _closeIdleConnections;;
  shuffle;;
  p ← getp;
  let conns := _pool p ++ _reserved p in
  let times := _minpoolsize p - Z.of_nat (length conns) in
  (if 0 <? times then topUp (Z.to_nat times) else mret tt);;
  p ← getp;
  match _pool p with
  | c :: rest =>
      modp (set_pool rest);;
      modp (fun p => set_reserved (c :: _reserved p) p);;
      mret (CbOk c)
  | [] =>
      if Z.of_nat (length (_reserved p)) <? _maxpoolsize p then
        try_catch
          (c ← addConnectionSync (_keepalive p) (_maxidle p);
           modp (fun p => set_reserved (c :: _reserved p) p);;
           mret (CbOk c))
          (fun err => mret (CbErr err))
      else mret (CbErr (Error "No more pool connections available"))
  end.

(** ** release (lines 257-275) *)

(** lodash's [_.reject]. *)
Definition reject {A} (f : A -> bool) (l : list A) : list A :=
  filter (fun x => f x = false) l.

Definition release (c : value) : M (reply unit) :=
  if bool_decide (typeof c = "object") then
    match c with
    | VObject o =>
        let id := uuid o in
        modp (fun p => set_reserved
                (reject (fun c' => strict_eq (uuid c') id) (_reserved p)) p);;
        modp (fun p => set_pool (o :: _pool p) p);;
        mret (CbOk tt)
    | _ => throw TypeError (* reading [uuid] of null *)
    end
  else mret (CbErr (Error "INVALID CONNECTION")).

(** ** purge (lines 277-299) *)

(** [asyncjs.each(conns, ...)]: every [done()] is called without an error, so
    the iterator runs on every element unless it throws itself. *)
Fixpoint closeAll (conns : list connobj) : M unit :=
  match conns with
  | [] => mret tt
  | c :: rest =>
      (if bool_decide (conn c ≠ ConnNull) then close_conn (conn c) false
       else mret tt);;
      closeAll rest
  end.

(** The final callback of [asyncjs.each] empties both arrays once every
    [done()] was called; the whole of [purge] is one step here. *)
Definition purge : M unit :=
  p ← getp;
  let conns := _pool p ++ _reserved p in
  closeAll conns;;
  modp (set_pool []);;
  modp (set_reserved []).

(** ** status (lines 120-128): the two counters and the identities *)

Record Status := {
  available : nat;
  reserved : nat;
  pool_ids : list prim;
  rpool_ids : list prim
}.

Definition status (p : Pool) : Status :=
  {| available := length (_pool p);
     reserved := length (_reserved p);
     pool_ids := uuid <$> _pool p;
     rpool_ids := uuid <$> _reserved p |}.

(** ** Sequences of calls *)

Inductive op :=
  | Reserve
  | Release (c : value)
  | Purge
  | Tick (ms : Z).  (* time passes between two calls *)

Definition step (o : op) (s : State) : State :=
  match o with
  | Reserve => (reserve s).2
  | Release c => (release c s).2
  | Purge => (purge s).2
  | Tick ms => (s.1, advance ms s.2)
  end.

Definition run (ops : list op) (s : State) : State := foldl (fun s o => step o s) s ops.

End WithEnv.

(** ** Concrete environments and states used in the examples *)

(** The identities handed out in the examples: "#", "i#", "ii#", ... *)
Fixpoint id_of (n : nat) : string :=
  match n with
  | O => "#"
  | S k => ("i" +:+ id_of k)
  end.

(** A driver manager that always connects, and connections that close
    without error. *)
Definition env_ok : Env :=
  {| getConnection := fun n => Some n;
     uuid_v4 := id_of;
     random := fun n => n;
     close_result := fun _ _ => Closed;
     driver_ok := true |}.

(** As [env_ok], but every [close] reports an error at once. *)
Definition env_close_fails : Env :=
  {| getConnection := fun n => Some n;
     uuid_v4 := id_of;
     random := fun n => n;
     close_result := fun _ _ => FailsNow;
     driver_ok := true |}.

(** As [env_ok], but the driver manager fails from its [k]-th call on. *)
Definition env_fails_from (k : nat) : Env :=
  {| getConnection := fun n => if (n <? k)%nat then Some n else None;
     uuid_v4 := id_of;
     random := fun n => n;
     close_result := fun _ _ => Closed;
     driver_ok := true |}.

Definition world0 : World :=
  {| now := 0; opened := 0; drawn := 0; rolls := 0; closes := []; uncaught := [] |}.

Definition config_2_3 (maxidle : option Z) : Config :=
  {| cfg_drivername := ""; cfg_minpoolsize := Some 2; cfg_maxpoolsize := Some 3;
     cfg_keepalive := None; cfg_maxidle := maxidle |}.

Definition config_1_2 (maxidle : option Z) : Config :=
  {| cfg_drivername := ""; cfg_minpoolsize := Some 1; cfg_maxpoolsize := Some 2;
     cfg_keepalive := None; cfg_maxidle := maxidle |}.


(** The object [{}]. *)
Definition empty_object : connobj :=
  {| uuid := PUndefined; conn := ConnUndefined; keepalive := false; lastIdle := None |}.

(** The record made from the [n]-th connection and the [n]-th identity. *)
Definition record (n : nat) (idle : option Z) : connobj :=
  {| uuid := PStr (id_of n); conn := ConnObj n;
     keepalive := false; lastIdle := idle |}.

(** The java connections wrapped by the elements of an array. *)
Definition handles (l : list connobj) : list handle :=
  omap (fun c => match conn c with ConnObj h => Some h | _ => None end) l.

(** An argument with a connection identity: an object whose [uuid] is a
    string, as [uuid.v4()] makes them. *)
Definition has_identity (v : value) : Prop :=
  exists o s, v = VObject o /\ uuid o = PStr s.

(** ** Notions used in the statements *)

(** The world after a close attempt on each of [hs], in order. *)
Definition log_closes (hs : list handle) (w : World) : World :=
  foldl (fun w h => log_close h w) w hs.

(** The test of the loop body: the element is closed and spliced out. *)
Definition expired (cutoff : Z) (c : connobj) : Prop :=
  conn c ≠ ConnNull /\ js_lt (lastIdle c) cutoff = true.

#[global] Instance expired_dec cutoff c : Decision (expired cutoff c).
Proof. unfold expired. apply _. Defined.

(** The clock and the counters of the driver manager, of [uuid.v4] and of
    [Math.random] are as before. *)
Definition same_counters (w w' : World) : Prop :=
  now w' = now w /\ opened w' = opened w /\ drawn w' = drawn w /\ rolls w' = rolls w.

(** A record whose [lastIdle] is strictly before [cutoff]. *)
Definition idle_before (cutoff : Z) (c : connobj) : Prop :=
  exists t, lastIdle c = Some t /\ t < cutoff.

#[global] Instance idle_before_dec cutoff c : Decision (idle_before cutoff c).
Proof.
  unfold idle_before. destruct (lastIdle c) as [t|].
  - destruct (decide (t < cutoff)) as [H|H].
    + left. by exists t.
    + right. intros (t' & [= <-] & ?). done.
  - right. intros (t' & [=] & ?).
Defined.

(** Only [Math.random] was called. *)
Definition same_but_rolls (w w' : World) : Prop :=
  now w' = now w /\ opened w' = opened w /\ drawn w' = drawn w /\
  closes w' = closes w /\ uncaught w' = uncaught w.

(** The world after [n] connections were created. *)
Definition grow (n : nat) (w : World) : World :=
  {| now := now w; opened := opened w + n; drawn := drawn w + n; rolls := rolls w;
     closes := closes w; uncaught := uncaught w |}.

(** The record made from java connection [h] when [k] ids were drawn since [w]. *)
Definition fresh_record (E : Env) (p : Pool) (w : World) (k : nat) (h : handle) : connobj :=
  {| uuid := PStr (uuid_v4 E (drawn w + k)); conn := ConnObj h;
     keepalive := ka_enabled (_keepalive p);
     lastIdle := if truthy (_maxidle p) then Some (now w) else None |}.

(** The records of [n] successful creations in a row, oldest first. *)
Definition created (E : Env) (p : Pool) (w : World) (n : nat) : list connobj :=
  (fun k => fresh_record E p w k (default 0%nat (getConnection E (opened w + k))))
    <$> seq 0 n.

(** Lines 182-189 of [reserve]: the top-up to [_minpoolsize]. *)
Definition topUpToMin (E : Env) : M unit :=
  p ← getp;
  let conns := _pool p ++ _reserved p in
  let times := _minpoolsize p - Z.of_nat (length conns) in
  if 0 <? times then topUp E (Z.to_nat times) else mret tt.

(** Lines 193-220 of [reserve]: a connection is handed out, or not. *)
Definition handOut (E : Env) : M (reply connobj) :=
  p ← getp;
  match _pool p with
  | c :: rest =>
      modp (set_pool rest);;
      modp (fun p => set_reserved (c :: _reserved p) p);;
      mret (CbOk c)
  | [] =>
      if Z.of_nat (length (_reserved p)) <? _maxpoolsize p then
        try_catch
          (c ← addConnectionSync E (_keepalive p) (_maxidle p);
           modp (fun p => set_reserved (c :: _reserved p) p);;
           mret (CbOk c))
          (fun err => mret (CbErr err))
      else mret (CbErr (Error "No more pool connections available"))
  end.

(** The two stages that run before anything is created. *)
Definition prepare (E : Env) : M unit := _closeIdleConnections E;; shuffle E.

(** A pool of [config_2_3 (Some 1000)] at time 1500 whose two available
    records became idle at 0 and at 1000. *)
Definition state_two_idle : State :=
  (set_pool [record 0 (Some 0); record 1 (Some 1000)] (new_Pool (config_2_3 (Some 1000))),
   advance 1500 (grow 2 world0)).

(** [state_two_idle] after the eviction: the record idle since 0 was closed
    and removed. *)
Definition state_one_idle_left : State :=
  (set_pool [record 1 (Some 1000)] (new_Pool (config_2_3 (Some 1000))),
   log_close 0%nat (advance 1500 (grow 2 world0))).

(** A pool of [config_1_2 None] whose only record is reserved. *)
Definition state_one_reserved : State :=
  (set_reserved [record 0 None] (new_Pool (config_1_2 None)), grow 1 world0).

(** Every element wraps a java connection. *)
Definition pooled (l : list connobj) : Prop :=
  forall c, c ∈ l -> exists h, conn c = ConnObj h.

(** A record as the pool makes them: its [conn] wraps a connection the driver
    manager delivered, its [uuid] was drawn from [uuid.v4], and [keepalive]
    is a timer exactly when [ka] says so. *)
Definition made_by (E : Env) (ka : bool) (c : connobj) : Prop :=
  exists k j h,
    getConnection E k = Some h /\ conn c = ConnObj h /\
    uuid c = PStr (uuid_v4 E j) /\ keepalive c = ka.

(** The elements of both arrays. *)
Definition entries (p : Pool) : list connobj := _pool p ++ _reserved p.

(** No [uuid] occurs twice in the two arrays taken together, and every one of
    them was drawn from [uuid.v4]. *)
Definition unique_ids (E : Env) (s : State) : Prop :=
  NoDup (uuid <$> entries s.1) /\
  forall c, c ∈ entries s.1 ->
    exists k, (k < drawn s.2)%nat /\ uuid c = PStr (uuid_v4 E k).

(** Every [release] of the sequence is given a record that is reserved at
    that moment. *)
Fixpoint well_behaved (E : Env) (ops : list op) (s : State) : Prop :=
  match ops with
  | [] => True
  | o :: ops' =>
      match o with
      | Release c => exists r, c = VObject r /\ r ∈ _reserved s.1
      | _ => True
      end /\ well_behaved E ops' (step E o s)
  end.

(** The computation keeps the identities unique, however it ends. *)
Definition keeps_ids (E : Env) {A} (m : M A) : Prop :=
  forall s, unique_ids E s -> unique_ids E (m s).2.

(** The pool of [config_2_3 None] after [initialize]. *)
Definition state_initialized : State :=
  (initialize env_ok (new_Pool (config_2_3 None), world0)).2.

(** The record carries the creation time [now w], or no [lastIdle] at all
    when [_maxidle] is not set. *)
Definition stamped (p : Pool) (w : World) (c : connobj) : Prop :=
  lastIdle c = if truthy (_maxidle p) then Some (now w) else None.

(** The pool of [config_2_3 (Some 1000)] initialized at time 0. *)
Definition state_initialized_idle : State :=
  (initialize env_ok (new_Pool (config_2_3 (Some 1000)), world0)).2.

(** ** connStatus and status in full (lines 103-128) *)

(** The three synchronous probes of a [Connection]; [None] when the java
    call throws. *)
Record Probes := {
  isClosedSync : handle -> option bool;
  isReadOnlySync : handle -> option bool;
  isValidSync : handle -> Z -> option bool
}.

(** One element of [status.pool] and [status.rpool]. *)
Record ConnStatus := {
  st_uuid : prim;
  st_closed : bool;
  st_readonly : bool;
  st_valid : bool
}.

(** How a call of [status] ends: the callback gets the report, or a probe is
    called on [undefined] or [null], or a probe throws. *)
Inductive status_outcome (A : Type) :=
  | Reported (a : A)
  | ProbeTypeError
  | ProbeException (h : handle).
Arguments Reported {A} a.
Arguments ProbeTypeError {A}.
Arguments ProbeException {A} h.

(** [connStatus(acc, pool)]: the [_.reduce] that pushes one entry per
    element. *)
Fixpoint connStatus (P : Probes) (acc : list ConnStatus) (pool : list connobj)
    : status_outcome (list ConnStatus) :=
  match pool with
  | [] => Reported acc
  | connobj :: rest =>
      match conn connobj with
      | ConnObj h =>
          match isClosedSync P h with
          | None => ProbeException h
          | Some closed =>
              match isReadOnlySync P h with
              | None => ProbeException h
              | Some readonly =>
                  match isValidSync P h 1000 with
                  | None => ProbeException h
                  | Some valid =>
                      connStatus P
                        (acc ++ [{| st_uuid := uuid connobj; st_closed := closed;
                                    st_readonly := readonly; st_valid := valid |}])
                        rest
                  end
              end
          end
      | _ => ProbeTypeError
      end
  end.

Record Report := {
  r_available : nat;
  r_reserved : nat;
  r_pool : list ConnStatus;
  r_rpool : list ConnStatus
}.

(** [Pool.prototype.status]; it reads the pool and writes nothing. *)
Definition status_report (P : Probes) (p : Pool) : status_outcome Report :=
  match connStatus P [] (_pool p) with
  | Reported pool =>
      match connStatus P [] (_reserved p) with
      | Reported rpool =>
          Reported {| r_available := length (_pool p);
                      r_reserved := length (_reserved p);
                      r_pool := pool; r_rpool := rpool |}
      | ProbeTypeError => ProbeTypeError
      | ProbeException h => ProbeException h
      end
  | ProbeTypeError => ProbeTypeError
  | ProbeException h => ProbeException h
  end.

(** Probes that always answer: open, writable, valid. *)
Definition probes_ok : Probes :=
  {| isClosedSync := fun _ => Some false;
     isReadOnlySync := fun _ => Some false;
     isValidSync := fun _ _ => Some true |}.

(** ** Notions used in the further properties *)

(** The configuration part of two pool objects is the same. *)
Definition same_config (p p' : Pool) : Prop :=
  _drivername p' = _drivername p /\ _minpoolsize p' = _minpoolsize p /\
  _maxpoolsize p' = _maxpoolsize p /\ _keepalive p' = _keepalive p /\
  _maxidle p' = _maxidle p.

(** The number of elements of both arrays. *)
Definition total (p : Pool) : Z := Z.of_nat (length (_pool p) + length (_reserved p)).

(** The largest of the two configured sizes. *)
Definition capacity (p : Pool) : Z := Z.max (_minpoolsize p) (_maxpoolsize p).

(** From [s] to [s']: the configuration is kept and the arrays together did
    not grow beyond the capacity. *)
Definition within_capacity (s s' : State) : Prop :=
  same_config s.1 s'.1 /\ total s'.1 <= Z.max (total s.1) (capacity s.1).

(** From [s] to [s']: the configuration and the reserved array are kept and
    nothing was closed. *)
Definition reserved_kept (s s' : State) : Prop :=
  same_config s.1 s'.1 /\ _reserved s'.1 = _reserved s.1 /\
  closes s'.2 = closes s.2.

(** The computation relates every state to the one it ends in, however it
    ends. *)
Definition respects {A} (R : State -> State -> Prop) (m : M A) : Prop :=
  forall s, R s (m s).2.

(** A pool of [config_2_3 (Some 1000)] at time 1500 whose last available
    record is idle since 0. *)
Definition state_last_idle : State :=
  (set_pool [record 1 (Some 1000); record 0 (Some 0)] (new_Pool (config_2_3 (Some 1000))),
   advance 1500 (grow 2 world0)).

(** A configuration with keepalive switched on and [maxidle] given. *)
Definition config_keepalive : Config :=
  {| cfg_drivername := ""; cfg_minpoolsize := Some 2; cfg_maxpoolsize := Some 3;
     cfg_keepalive := Some {| ka_interval := 1000; ka_query := "select 1";
                              ka_enabled := true |};
     cfg_maxidle := Some 1000 |}.

(** A pool of [config_1_2 (Some 1000)] at time 5000: one record reserved, and
    one available that is idle since 0. *)
Definition state_idle_and_reserved : State :=
  (set_reserved [record 0 (Some 0)]
     (set_pool [record 1 (Some 0)] (new_Pool (config_1_2 (Some 1000)))),
   advance 5000 (grow 2 world0)).

(** A pool of [config_1_2 (Some 1000)] at time 1500 with two available
    records, idle since 0 and since 1000. *)
Definition state_idle_and_fresh : State :=
  (set_pool [record 0 (Some 0); record 1 (Some 1000)] (new_Pool (config_1_2 (Some 1000))),
   advance 1500 (grow 2 world0)).

(** [state_idle_and_fresh] after the eviction. *)
Definition state_fresh_left : State :=
  (set_pool [record 1 (Some 1000)] (new_Pool (config_1_2 (Some 1000))),
   log_close 0%nat (advance 1500 (grow 2 world0))).

(** * Proofs *)

Ltac mstep :=
  unfold mbind, M_bind, mret, M_ret, getp, getw, modp, modw, throw, try_catch in *;
  cbn [fst snd] in *.

Lemma set_pool_id p : set_pool (_pool p) p = p.
Proof. by destruct p. Qed.

Lemma set_reserved_id p : set_reserved (_reserved p) p = p.
Proof. by destruct p. Qed.

Lemma set_pool_set_pool l l' p : set_pool l (set_pool l' p) = set_pool l p.
Proof. done. Qed.

Lemma set_reserved_set_reserved l l' p :
  set_reserved l (set_reserved l' p) = set_reserved l p.
Proof. done. Qed.

Lemma mbind_done {A B} (m : M A) (f : A -> M B) s a s' :
  m s = (Done a, s') -> (m ≫= f) s = f a s'.
Proof. intros H. unfold mbind, M_bind. by rewrite H. Qed.

Lemma mbind_throw {A B} (m : M A) (f : A -> M B) s e s' :
  m s = (Throw e, s') -> (m ≫= f) s = (Throw e, s').
Proof. intros H. unfold mbind, M_bind. by rewrite H. Qed.

Lemma getp_run s : getp s = (Done s.1, s).
Proof. done. Qed.

Lemma getw_run s : getw s = (Done s.2, s).
Proof. done. Qed.

Lemma mret_run {A} (a : A) (s : State) : (mret a : M A) s = (Done a, s).
Proof. done. Qed.

Lemma asyncjs_times_nonneg {A} (count : Z) (iter : M (reply A)) :
  0 <= count -> asyncjs_times count iter = times (Z.to_nat count) iter.
Proof.
  intros H. unfold asyncjs_times.
  by replace (count <? 0) with false by (symmetry; by apply Z.ltb_ge).
Qed.

Lemma asyncjs_times_negative {A} (count : Z) (iter : M (reply A)) s :
  count < 0 -> asyncjs_times count iter s = (Throw RangeError, s).
Proof.
  intros H. unfold asyncjs_times.
  by replace (count <? 0) with true by (symmetry; by apply Z.ltb_lt).
Qed.

(** ** release *)

Lemma release_object o s :
  release (VObject o) s =
  (Done (CbOk tt),
   (set_pool (o :: _pool s.1)
      (set_reserved (reject (fun c' => strict_eq (uuid c') (uuid o)) (_reserved s.1)) s.1),
    s.2)).
Proof. destruct s as [p w]. reflexivity. Qed.

Lemma release_null s : release (VPrim PNull) s = (Throw TypeError, s).
Proof. destruct s as [p w]. reflexivity. Qed.

Lemma reject_none {A} (f : A -> bool) (l : list A) :
  (forall x, x ∈ l -> f x = false) -> reject f l = l.
Proof.
  unfold reject. induction l as [|a l IH]; intros H; [done|].
  rewrite filter_cons_True by (apply H; left).
  f_equal. apply IH. intros x Hx. apply H. by right.
Qed.

(** C7, as amended: an argument whose [typeof] is not ["object"] is answered
    with the error "INVALID CONNECTION" and nothing changes, neither the two
    arrays nor anything else. *)
Theorem release_non_object_rejected (x : value) (s : State) :
  typeof x ≠ "object" ->
  release x s = (Done (CbErr (Error "INVALID CONNECTION")), s).
Proof.
  intros H. unfold release. rewrite bool_decide_eq_false_2 by done. reflexivity.
Qed.

Lemma release_non_object_rejected_witness :
  typeof (VPrim (PNum 5)) ≠ "object" /\
  release (VPrim (PNum 5)) (new_Pool (config_2_3 None), world0) =
  (Done (CbErr (Error "INVALID CONNECTION")), (new_Pool (config_2_3 None), world0)).
Proof.
  split; [discriminate|].
  apply (release_non_object_rejected (VPrim (PNum 5))). discriminate.
Defined.

(** C7, as stated, fails: [{}] has no identity at all, and yet [release({})]
    succeeds and puts it into the available array. *)
Lemma release_object_without_identity_accepted :
  ~ has_identity (VObject empty_object) /\
  release (VObject empty_object) (new_Pool (config_2_3 None), world0) =
  (Done (CbOk tt), (set_pool [empty_object] (new_Pool (config_2_3 None)), world0)) /\
  _pool (set_pool [empty_object] (new_Pool (config_2_3 None))) ≠
  _pool (new_Pool (config_2_3 None)).
Proof.
  split; [|split].
  - intros (o & s & Ho & Hs). injection Ho as <-. discriminate.
  - reflexivity.
  - discriminate.
Qed.

(** C9: for every object [o], [release(o)] calls back without an error and
    leaves [o] at the front of the available array, whatever the reserved
    array holds; when no reserved element has its [uuid] the reserved array
    is unchanged; and when [o] was already available it is there twice
    afterwards. *)
Theorem release_object_always_unshifts (o : connobj) (s : State) :
  exists s',
    release (VObject o) s = (Done (CbOk tt), s') /\
    _pool s'.1 = o :: _pool s.1 /\
    s'.2 = s.2 /\
    ((forall c, c ∈ _reserved s.1 -> uuid c ≠ uuid o) ->
     _reserved s'.1 = _reserved s.1) /\
    (o ∈ _pool s.1 ->
     ~ NoDup (_pool s'.1) /\
     (2 <= length (filter (fun c => c = o) (_pool s'.1)))%nat).
Proof.
  eexists. split; [apply release_object|]. cbn [fst snd].
  split; [done|]. split; [done|]. split.
  - intros H. cbn. apply reject_none. intros c Hc. unfold strict_eq.
    apply bool_decide_eq_false_2. by apply H.
  - intros Hin. cbn [_pool set_pool]. split.
    + intros Hnd. apply NoDup_cons in Hnd as [Hn _]. done.
    + rewrite filter_cons_True by done. cbn [length].
      apply list_elem_of_split in Hin as (l1 & l2 & ->).
      rewrite filter_app, filter_cons_True by done.
      rewrite length_app. cbn [length]. lia.
Qed.

Lemma release_object_always_unshifts_witness :
  exists s',
    release (VObject (record 0 None))
      (set_pool [record 0 None] (new_Pool (config_2_3 None)), world0)
    = (Done (CbOk tt), s') /\
    _pool s'.1 = [record 0 None; record 0 None].
Proof.
  destruct (release_object_always_unshifts (record 0 None)
              (set_pool [record 0 None] (new_Pool (config_2_3 None)), world0))
    as (s' & H1 & H2 & _).
  exists s'. split; [exact H1 | exact H2].
Defined.

(** ** purge *)

Lemma closes_log_closes hs w : closes (log_closes hs w) = closes w ++ hs.
Proof.
  revert w. induction hs as [|h hs IH]; intros w; cbn.
  - by rewrite app_nil_r.
  - unfold log_closes in IH. rewrite IH. cbn. by rewrite <- app_assoc.
Qed.

Lemma log_closes_frame hs w :
  now (log_closes hs w) = now w /\ opened (log_closes hs w) = opened w /\
  drawn (log_closes hs w) = drawn w /\ rolls (log_closes hs w) = rolls w /\
  uncaught (log_closes hs w) = uncaught w.
Proof.
  revert w. induction hs as [|h hs IH]; intros w; [done|].
  destruct (IH (log_close h w)) as (?&?&?&?&?).
  unfold log_closes in *. cbn in *. repeat split; congruence.
Qed.

Section Purge.

Variable E : Env.

(** A close whose error is swallowed always returns. *)
Lemma close_conn_swallow h s :
  close_conn E (ConnObj h) false s = (Done tt, (s.1, log_close h s.2)).
Proof.
  destruct s as [p w]. unfold close_conn. mstep.
  by destruct (close_result E (length (closes w)) h).
Qed.

Lemma closeAll_spec (l : list connobj) : forall s,
  (forall c, c ∈ l -> conn c ≠ ConnUndefined) ->
  closeAll E l s = (Done tt, (s.1, log_closes (handles l) s.2)).
Proof.
  induction l as [|c l IH]; intros [p w] H; [done|].
  cbn [closeAll]. mstep.
  assert (Hc : conn c ≠ ConnUndefined) by (apply H; left).
  assert (Hl : forall c', c' ∈ l -> conn c' ≠ ConnUndefined)
    by (intros c' Hc'; apply H; by right).
  destruct (conn c) as [| |h] eqn:Hconn; [done| |].
  - rewrite bool_decide_eq_false_2 by (intros ?; done).
    rewrite IH by done. unfold handles. cbn. by rewrite Hconn.
  - rewrite bool_decide_eq_true_2 by done.
    rewrite close_conn_swallow. cbn [fst snd].
    rewrite IH by done. unfold handles. cbn. by rewrite Hconn.
Qed.

(** C3: on arrays whose elements all carry a connection (or [null]), [purge]
    calls [close] once on every connection of available and then of reserved,
    in order, whatever the outcome of each close, and leaves both arrays
    empty, so that [status] reports 0 and 0. *)
Theorem purge_closes_all_and_empties (s : State) :
  (forall c, c ∈ _pool s.1 ++ _reserved s.1 -> conn c ≠ ConnUndefined) ->
  exists s',
    purge E s = (Done tt, s') /\
    closes s'.2 = closes s.2 ++ handles (_pool s.1) ++ handles (_reserved s.1) /\
    _pool s'.1 = [] /\ _reserved s'.1 = [] /\
    available (status s'.1) = 0%nat /\ reserved (status s'.1) = 0%nat.
Proof.
  intros H. destruct s as [p w]. unfold purge. mstep.
  rewrite closeAll_spec by done. cbn [fst snd].
  eexists. split; [reflexivity|]. cbn.
  rewrite closes_log_closes. unfold handles. by rewrite omap_app.
Qed.

End Purge.

Lemma purge_closes_all_and_empties_witness :
  exists s',
    purge env_close_fails
      (set_reserved [record 2 None] (set_pool [record 0 None; record 1 None]
         (new_Pool (config_2_3 None))), world0) = (Done tt, s') /\
    closes s'.2 = [0; 1; 2]%nat /\
    _pool s'.1 = [] /\ _reserved s'.1 = [].
Proof.
  destruct (purge_closes_all_and_empties env_close_fails
     (set_reserved [record 2 None] (set_pool [record 0 None; record 1 None]
         (new_Pool (config_2_3 None))), world0)) as (s' & H1 & H2 & H3 & H4 & _).
  - intros c Hc. cbn in Hc.
    repeat (apply elem_of_cons in Hc as [-> | Hc]; [discriminate|]).
    by apply elem_of_nil in Hc.
  - exists s'. repeat split; assumption.
Defined.

(** ** Idle eviction *)

Lemma same_counters_refl w : same_counters w w.
Proof. by repeat split. Qed.

Lemma same_counters_trans w1 w2 w3 :
  same_counters w1 w2 -> same_counters w2 w3 -> same_counters w1 w3.
Proof. unfold same_counters. intros (?&?&?&?) (?&?&?&?). repeat split; congruence. Qed.

Section Eviction.

Variable E : Env.

Lemma close_conn_rethrow_frame c s :
  (close_conn E c true s).2.1 = s.1 /\
  same_counters s.2 (close_conn E c true s).2.2.
Proof.
  destruct s as [p w]. unfold close_conn.
  destruct c as [| |h]; mstep; try (split; [done|apply same_counters_refl]).
  destruct (close_result E (length (closes w)) h); cbn; by repeat split.
Qed.

(** Whatever happens (also when a close throws), the loop only removes
    elements of [_pool]. *)
Lemma closeIdleLoop_frame (n : nat) (cutoff : Z) : forall s,
  exists l',
    (closeIdleLoop E n cutoff s).2.1 = set_pool l' s.1 /\
    l' `sublist_of` _pool s.1 /\
    same_counters s.2 (closeIdleLoop E n cutoff s).2.2.
Proof.
  induction n as [|i IH]; intros [p w].
  - exists (_pool p). cbn. rewrite set_pool_id. split; [done|].
    split; [done|apply same_counters_refl].
  - cbn [closeIdleLoop]. mstep.
    destruct (_pool p !! i) as [c|] eqn:Hc; [|apply IH].
    destruct (bool_decide (conn c ≠ ConnNull)); [|apply IH].
    destruct (js_lt (lastIdle c) cutoff); [|apply IH].
    destruct (close_conn_rethrow_frame (conn c) (p, w)) as [Hp Hw].
    destruct (close_conn E (conn c) true (p, w)) as [[u|e] [p1 w1]] eqn:Hclose;
      cbn [fst snd] in *; subst p1.
    + unfold splice_pool. mstep.
      destruct (IH (set_pool (delete i (_pool p)) p, w1)) as (l' & H1 & H2 & H3).
      exists l'. split; [exact H1|]. split.
      * etrans; [exact H2|]. cbn. apply sublist_delete.
      * eapply same_counters_trans; eauto.
    + exists (_pool p). rewrite set_pool_id. done.
Qed.

Lemma close_conn_rethrow_ok h s :
  close_result E (length (closes s.2)) h ≠ FailsNow ->
  exists w1,
    close_conn E (ConnObj h) true s = (Done tt, (s.1, w1)) /\
    closes w1 = closes s.2 ++ [h] /\ same_counters s.2 w1.
Proof.
  destruct s as [p w]. intros H. unfold close_conn. mstep.
  destruct (close_result E (length (closes w)) h); [|done|];
    eexists; (split; [reflexivity|]); by repeat split.
Qed.

(** When no close throws, the loop entered at [n] has filtered the first [n]
    elements, closing the expired ones from the last to the first. *)
Lemma closeIdleLoop_exact (n : nat) (cutoff : Z) : forall s,
  (forall k h, close_result E k h ≠ FailsNow) ->
  (forall c, c ∈ _pool s.1 -> conn c ≠ ConnUndefined) ->
  (n <= length (_pool s.1))%nat ->
  exists w',
    closeIdleLoop E n cutoff s =
      (Done tt, (set_pool (filter (fun c => ~ expired cutoff c) (take n (_pool s.1))
                           ++ drop n (_pool s.1)) s.1, w')) /\
    closes w' = closes s.2
                ++ reverse (handles (filter (expired cutoff) (take n (_pool s.1)))) /\
    same_counters s.2 w'.
Proof.
  induction n as [|i IH]; intros [p w] Hclose Hwf Hn; cbn [fst snd] in *.
  - exists w. rewrite take_0, !filter_nil, drop_0. cbn [app]. rewrite set_pool_id.
    split; [done|]. split; [by rewrite app_nil_r|apply same_counters_refl].
  - cbn [closeIdleLoop].
    rewrite (mbind_done _ _ _ _ _ (getp_run _)). cbn [fst snd].
    destruct (lookup_lt_is_Some_2 (_pool p) i) as [c Hc]; [lia|].
    rewrite Hc. rewrite (take_S_r _ _ _ Hc).
    rewrite !filter_app.
    assert (Hin : c ∈ _pool p) by (eapply list_elem_of_lookup_2; eauto).
    destruct (decide (expired cutoff c)) as [Hexp|Hexp].
    + pose proof Hexp as [Hnn Hlt].
      rewrite bool_decide_eq_true_2, Hlt by done.
      destruct (conn c) as [| |h] eqn:Hconn; [by apply Hwf in Hin|done|].
      destruct (close_conn_rethrow_ok h (p, w)) as (w1 & Hrun & Hcl & Hsc);
        [apply Hclose|]. cbn [fst snd] in *.
      destruct (IH (set_pool (delete i (_pool p)) p, w1)) as (w' & H1 & H2 & H3).
      { done. }
      { cbn. intros c' Hc'. apply Hwf. eapply elem_of_sublist; [exact Hc'|].
        apply sublist_delete. }
      { cbn. rewrite length_delete by eauto. lia. }
      cbn [fst snd _pool set_pool] in *.
      assert (Ht : take i (delete i (_pool p)) = take i (_pool p)).
      { rewrite delete_take_drop, take_app_le by (rewrite length_take; lia).
        rewrite take_take. f_equal. lia. }
      assert (Hd : drop i (delete i (_pool p)) = drop (S i) (_pool p)).
      { rewrite delete_take_drop, drop_app_ge by (rewrite length_take; lia).
        rewrite length_take. replace (i - i `min` length (_pool p))%nat with 0%nat by lia.
        by rewrite drop_0. }
      rewrite Ht, Hd, set_pool_set_pool in H1. rewrite Ht in H2.
      exists w'. split; [|split].
      * erewrite mbind_done; [|erewrite mbind_done; [|exact Hrun]; reflexivity].
        cbn [fst snd]. rewrite H1. do 3 f_equal.
        rewrite (filter_cons_False _ c) by (intros Hf; by apply Hf).
        by rewrite filter_nil, app_nil_r.
      * rewrite H2, Hcl.
        rewrite (filter_cons_True _ c) by done.
        rewrite filter_nil. unfold handles. rewrite omap_app. cbn. rewrite Hconn.
        rewrite reverse_app. cbn. by rewrite <- app_assoc.
      * eapply same_counters_trans; eauto.
    + destruct (IH (p, w)) as (w' & H1 & H2 & H3); [done|done|cbn; lia|].
      cbn [fst snd] in *. exists w'. split; [|split; [|done]].
      * erewrite mbind_done; [rewrite H1|].
        { do 3 f_equal.
          rewrite (filter_cons_True _ c) by done. rewrite filter_nil.
          rewrite <- app_assoc. cbn. by rewrite (drop_S _ _ _ Hc). }
        case_bool_decide as Hnn; [|done].
        destruct (js_lt (lastIdle c) cutoff) eqn:Hlt; [|done].
        exfalso. apply Hexp. by split.
      * rewrite H2. rewrite (filter_cons_False _ c) by done.
        by rewrite filter_nil, app_nil_r.
Qed.

Lemma js_lt_idle_before cutoff c :
  js_lt (lastIdle c) cutoff = true <-> idle_before cutoff c.
Proof.
  unfold js_lt, idle_before. destruct (lastIdle c) as [t|].
  - rewrite Z.ltb_lt. split; [by exists t|]. by intros (t' & [= <-] & ?).
  - split; [done|]. by intros (t' & [=] & ?).
Qed.

Lemma filter_ext_in {A} (P1 P2 : A -> Prop)
    `{!forall x, Decision (P1 x), !forall x, Decision (P2 x)} (l : list A) :
  (forall x, x ∈ l -> P1 x <-> P2 x) -> filter P1 l = filter P2 l.
Proof.
  induction l as [|a l IH]; intros Hall; [done|].
  assert (Ha : P1 a <-> P2 a) by (apply Hall; left).
  assert (Hl : filter P1 l = filter P2 l)
    by (apply IH; intros x Hx; apply Hall; by right).
  destruct (decide (P1 a)).
  - rewrite !filter_cons_True by tauto. by rewrite Hl.
  - rewrite !filter_cons_False by tauto. done.
Qed.

(** Whatever happens, the eviction only removes elements of [_pool]. *)
Lemma closeIdleConnections_frame s :
  exists l',
    (_closeIdleConnections E s).2.1 = set_pool l' s.1 /\
    l' `sublist_of` _pool s.1 /\
    same_counters s.2 (_closeIdleConnections E s).2.2.
Proof.
  destruct s as [p w]. unfold _closeIdleConnections.
  rewrite (mbind_done _ _ _ _ _ (getp_run _)). cbn [fst snd].
  assert (Hid : exists l', p = set_pool l' p /\ l' `sublist_of` _pool p /\
                           same_counters w w).
  { exists (_pool p). rewrite set_pool_id. split; [done|].
    split; [done|apply same_counters_refl]. }
  destruct (_maxidle p) as [m|]; [|exact Hid].
  destruct (truthy (Some m)); [|exact Hid].
  unfold closeIdleConnectionsInArray, getTime.
  rewrite (mbind_done _ _ _ _ _ (mbind_done _ _ _ _ _ (getw_run _))).
  rewrite (mbind_done _ _ _ _ _ (getp_run _)). cbn [fst snd].
  apply (closeIdleLoop_frame (length (_pool p)) (now w - m) (p, w)).
Qed.

Lemma closeIdleConnections_off s :
  truthy (_maxidle s.1) = false -> _closeIdleConnections E s = (Done tt, s).
Proof.
  destruct s as [p w]. cbn [fst]. intros Hf. unfold _closeIdleConnections.
  rewrite (mbind_done _ _ _ _ _ (getp_run _)). cbn [fst snd].
  destruct (_maxidle p) as [m|]; [|done]. by rewrite Hf.
Qed.

(** With [_maxidle] set to [m], pooled records and closes that do not throw. *)
Lemma closeIdleConnections_on s m :
  _maxidle s.1 = Some m -> m ≠ 0 ->
  (forall k h, close_result E k h ≠ FailsNow) ->
  (forall c, c ∈ _pool s.1 -> exists h, conn c = ConnObj h) ->
  exists w',
    _closeIdleConnections E s =
      (Done tt, (set_pool (filter (fun c => ~ idle_before (now s.2 - m) c) (_pool s.1))
                   s.1, w')) /\
    closes w' =
      closes s.2 ++ reverse (handles (filter (idle_before (now s.2 - m)) (_pool s.1))) /\
    same_counters s.2 w'.
Proof.
  destruct s as [p w]. cbn [fst snd]. intros Hm Hm0 Hclose Hrec.
  destruct (closeIdleLoop_exact (length (_pool p)) (now w - m) (p, w))
    as (w' & H1 & H2 & H3); [done| |done|].
  { intros c Hc. destruct (Hrec c Hc) as [h ->]. done. }
  cbn [fst snd] in *. rewrite firstn_all, drop_all, app_nil_r in *.
  assert (Hiff : forall c, c ∈ _pool p ->
            expired (now w - m) c <-> idle_before (now w - m) c).
  { intros c Hc. unfold expired. rewrite js_lt_idle_before.
    destruct (Hrec c Hc) as [h ->]. intuition discriminate. }
  exists w'. split; [|split; [|done]].
  - unfold _closeIdleConnections.
    rewrite (mbind_done _ _ _ _ _ (getp_run _)). cbn [fst snd]. rewrite Hm.
    replace (truthy (Some m)) with true
      by (unfold truthy; symmetry; apply negb_true_iff, Z.eqb_neq; done).
    unfold closeIdleConnectionsInArray, getTime.
    rewrite (mbind_done _ _ _ _ _ (mbind_done _ _ _ _ _ (getw_run _))).
    rewrite (mbind_done _ _ _ _ _ (getp_run _)). cbn [fst snd]. rewrite H1.
    do 3 f_equal. apply filter_ext_in. intros c Hc. by rewrite Hiff.
  - rewrite H2. do 3 f_equal. by apply filter_ext_in.
Qed.

End Eviction.


(** ** shuffle *)

Section Shuffle.

Variable E : Env.

Lemma shuffleLoop_spec (index : nat) : forall s,
  exists l' w',
    shuffleLoop E index s = (Done tt, (set_pool l' s.1, w')) /\
    l' ≡ₚ _pool s.1 /\ same_but_rolls s.2 w'.
Proof.
  induction index as [|i IH]; intros [p w].
  - exists (_pool p), w. cbn. rewrite set_pool_id. by repeat split.
  - cbn [shuffleLoop]. unfold random_below, swap_pool. mstep.
    set (pos := (random E (rolls w) `mod` S (S i))%nat).
    destruct (_pool p !! S i) as [x|] eqn:Hx.
    + destruct (_pool p !! pos) as [y|] eqn:Hy.
      * destruct (IH (set_pool (<[pos:=x]> (<[S i:=y]> (_pool p))) p, bump_rolls w))
          as (l' & w' & H1 & H2 & H3).
        exists l', w'. rewrite H1. split; [done|]. split.
        -- etrans; [exact H2|]. cbn. by apply Permutation_insert_swap.
        -- unfold same_but_rolls in *. cbn in H3. done.
      * destruct (IH (p, bump_rolls w)) as (l' & w' & H1 & H2 & H3).
        exists l', w'. rewrite H1. done.
    + destruct (IH (p, bump_rolls w)) as (l' & w' & H1 & H2 & H3).
      exists l', w'. rewrite H1. done.
Qed.

Lemma shuffle_spec s :
  exists l' w',
    shuffle E s = (Done tt, (set_pool l' s.1, w')) /\
    l' ≡ₚ _pool s.1 /\ same_but_rolls s.2 w'.
Proof.
  unfold shuffle. rewrite (mbind_done _ _ _ _ _ (getp_run _)). apply shuffleLoop_spec.
Qed.

(** An empty array is left alone, and [Math.random] is not called. *)
Lemma shuffle_empty s : _pool s.1 = [] -> shuffle E s = (Done tt, s).
Proof.
  intros H. unfold shuffle. rewrite (mbind_done _ _ _ _ _ (getp_run _)).
  by rewrite H.
Qed.

End Shuffle.

(** ** addConnectionSync and the top-up loop *)

Lemma grow_0 w : grow 0 w = w.
Proof. destruct w. unfold grow. cbn. f_equal; lia. Qed.

Lemma grow_S n w : grow n (bump_drawn (bump_opened w)) = grow (S n) w.
Proof. unfold grow. cbn. f_equal; lia. Qed.

Section Creation.

Variable E : Env.

Lemma addConnectionSync_ok p w h :
  getConnection E (opened w) = Some h ->
  addConnectionSync E (_keepalive p) (_maxidle p) (p, w) =
  (Done (fresh_record E p w 0 h), (p, bump_drawn (bump_opened w))).
Proof.
  intros H. unfold addConnectionSync, getConnectionSync, uuid_next, getTime. mstep.
  rewrite H. unfold fresh_record. rewrite Nat.add_0_r.
  by destruct (truthy (_maxidle p)).
Qed.

Lemma addConnectionSync_fail p w :
  getConnection E (opened w) = None ->
  addConnectionSync E (_keepalive p) (_maxidle p) (p, w) =
  (Throw (ConnectError (opened w)), (p, bump_opened w)).
Proof.
  intros H. unfold addConnectionSync, getConnectionSync. mstep. by rewrite H.
Qed.

Lemma created_S p w n h :
  getConnection E (opened w) = Some h ->
  created E p w (S n) =
  fresh_record E p w 0 h :: created E (set_pool (fresh_record E p w 0 h :: _pool p) p)
                              (bump_drawn (bump_opened w)) n.
Proof.
  intros H. unfold created. cbn [seq fmap list_fmap]. rewrite Nat.add_0_r, H. cbn [default].
  f_equal. rewrite <- fmap_S_seq, <- list_fmap_compose. apply list_fmap_ext.
  intros i k _. cbn. unfold fresh_record. cbn.
  replace (S (opened w + k))%nat with (opened w + S k)%nat by lia.
  by replace (S (drawn w + k))%nat with (drawn w + S k)%nat by lia.
Qed.

(** [n] creations that all succeed put [n] new records in front of [_pool],
    the newest first. *)
Lemma topUp_ok (n : nat) : forall p w,
  (forall k, (k < n)%nat -> is_Some (getConnection E (opened w + k))) ->
  topUp E n (p, w) =
  (Done tt, (set_pool (reverse (created E p w n) ++ _pool p) p, grow n w)).
Proof.
  induction n as [|n IH]; intros p w H.
  - cbn. by rewrite set_pool_id, grow_0.
  - destruct (H 0%nat) as [h Hh]; [lia|]. rewrite Nat.add_0_r in Hh.
    cbn [topUp]. rewrite (mbind_done _ _ _ _ _ (getp_run _)). cbn [fst].
    rewrite (mbind_done _ _ _ _ _ (addConnectionSync_ok p w h Hh)).
    unfold modp at 1. mstep.
    rewrite IH.
    + rewrite (created_S p w n h Hh), reverse_cons, <- app_assoc, grow_S. done.
    + intros k Hk. cbn.
      replace (S (opened w + k)) with (opened w + S k)%nat by lia. apply H. lia.
Qed.

(** When the creation number [k] is the first to fail, the loop throws and
    the [k] records made before stay in [_pool]. *)
Lemma topUp_fail (n : nat) : forall k p w,
  (k < n)%nat ->
  (forall j, (j < k)%nat -> is_Some (getConnection E (opened w + j))) ->
  getConnection E (opened w + k) = None ->
  topUp E n (p, w) =
  (Throw (ConnectError (opened w + k)),
   (set_pool (reverse (created E p w k) ++ _pool p) p, bump_opened (grow k w))).
Proof.
  induction n as [|n IH]; intros k p w Hk Hok Hfail; [lia|].
  cbn [topUp]. rewrite (mbind_done _ _ _ _ _ (getp_run _)). cbn [fst].
  destruct k as [|k].
  - rewrite Nat.add_0_r in Hfail.
    rewrite (mbind_throw _ _ _ _ _ (addConnectionSync_fail p w Hfail)).
    cbn. by rewrite set_pool_id, grow_0, Nat.add_0_r.
  - destruct (Hok 0%nat) as [h Hh]; [lia|]. rewrite Nat.add_0_r in Hh.
    rewrite (mbind_done _ _ _ _ _ (addConnectionSync_ok p w h Hh)).
    unfold modp at 1. mstep.
    rewrite (IH k).
    + rewrite (created_S p w k h Hh), reverse_cons, <- app_assoc, grow_S. cbn.
      by replace (S (opened w + k)) with (opened w + S k)%nat by lia.
    + lia.
    + intros j Hj. cbn.
      replace (S (opened w + j)) with (opened w + S j)%nat by lia. apply Hok. lia.
    + cbn. by replace (S (opened w + k)) with (opened w + S k)%nat by lia.
Qed.

End Creation.

(** ** reserve, stage by stage *)

Section Reserve.

Variable E : Env.

Lemma reserve_stages s :
  reserve E s =
  (_closeIdleConnections E;; shuffle E;; topUpToMin E;; handOut E) s.
Proof.
  unfold reserve, topUpToMin, handOut, mbind, M_bind.
  destruct (_closeIdleConnections E s) as [[u|e] s0]; [|done].
  destruct (shuffle E s0) as [[u'|e] s1]; [|done].
  unfold getp at 1 3. cbn [fst snd].
  by destruct (if 0 <? _ then _ else _) as [[u''|e] s2].
Qed.

Lemma reserve_prepared s s1 :
  prepare E s = (Done tt, s1) ->
  reserve E s = (topUpToMin E;; handOut E) s1.
Proof.
  intros H. rewrite reserve_stages. unfold prepare, mbind, M_bind in *.
  destruct (_closeIdleConnections E s) as [[u|e] s0]; [|done].
  destruct (shuffle E s0) as [[u'|e] s1']; [|done].
  by injection H as _ ->.
Qed.

Lemma closeIdleConnections_empty s :
  _pool s.1 = [] -> _closeIdleConnections E s = (Done tt, s).
Proof.
  destruct s as [p w]. cbn [fst]. intros H. unfold _closeIdleConnections.
  rewrite (mbind_done _ _ _ _ _ (getp_run _)). cbn [fst snd].
  destruct (_maxidle p) as [m|]; [|done].
  destruct (truthy (Some m)); [|done].
  unfold closeIdleConnectionsInArray, getTime.
  rewrite (mbind_done _ _ _ _ _ (mbind_done _ _ _ _ _ (getw_run _))).
  rewrite (mbind_done _ _ _ _ _ (getp_run _)). cbn [fst snd]. by rewrite H.
Qed.

(** On an empty available array the two stages do nothing at all. *)
Lemma prepare_empty s : _pool s.1 = [] -> prepare E s = (Done tt, s).
Proof.
  intros H. unfold prepare.
  rewrite (mbind_done _ _ _ _ _ (closeIdleConnections_empty s H)).
  by apply shuffle_empty.
Qed.

(** After an eviction that returned, the shuffle returns a permutation. *)
Lemma prepare_after_eviction s s0 :
  _closeIdleConnections E s = (Done tt, s0) ->
  exists l1 w1,
    prepare E s = (Done tt, (set_pool l1 s0.1, w1)) /\
    l1 ≡ₚ _pool s0.1 /\ same_but_rolls s0.2 w1.
Proof.
  intros H. destruct (shuffle_spec E s0) as (l1 & w1 & H1 & H2 & H3).
  exists l1, w1. split; [|done]. unfold prepare.
  by rewrite (mbind_done _ _ _ _ _ H).
Qed.

(** *** The top-up stage *)

Lemma topUpToMin_skip s :
  _minpoolsize s.1 <= Z.of_nat (length (_pool s.1 ++ _reserved s.1)) ->
  topUpToMin E s = (Done tt, s).
Proof.
  intros H. unfold topUpToMin. rewrite (mbind_done _ _ _ _ _ (getp_run _)).
  cbn zeta. replace (0 <? _) with false; [done|]. symmetry. apply Z.ltb_ge. lia.
Qed.

Lemma topUpToMin_run s :
  Z.of_nat (length (_pool s.1 ++ _reserved s.1)) < _minpoolsize s.1 ->
  topUpToMin E s =
  topUp E (Z.to_nat (_minpoolsize s.1 - Z.of_nat (length (_pool s.1 ++ _reserved s.1)))) s.
Proof.
  intros H. unfold topUpToMin. rewrite (mbind_done _ _ _ _ _ (getp_run _)).
  cbn zeta. replace (0 <? _) with true; [done|]. symmetry. apply Z.ltb_lt. lia.
Qed.

(** *** The hand-out stage *)

Lemma handOut_available p w c rest :
  _pool p = c :: rest ->
  handOut E (p, w) =
  (Done (CbOk c), (set_reserved (c :: _reserved p) (set_pool rest p), w)).
Proof.
  intros H. unfold handOut. rewrite (mbind_done _ _ _ _ _ (getp_run _)).
  cbn [fst]. by rewrite H.
Qed.

Lemma handOut_grow p w h :
  _pool p = [] -> Z.of_nat (length (_reserved p)) < _maxpoolsize p ->
  getConnection E (opened w) = Some h ->
  handOut E (p, w) =
  (Done (CbOk (fresh_record E p w 0 h)),
   (set_reserved (fresh_record E p w 0 h :: _reserved p) p, bump_drawn (bump_opened w))).
Proof.
  intros H Hlt Hh. unfold handOut. rewrite (mbind_done _ _ _ _ _ (getp_run _)).
  cbn [fst]. rewrite H. replace (_ <? _) with true by (symmetry; by apply Z.ltb_lt).
  unfold try_catch.
  by rewrite (mbind_done _ _ _ _ _ (addConnectionSync_ok E p w h Hh)).
Qed.

Lemma handOut_grow_fails p w :
  _pool p = [] -> Z.of_nat (length (_reserved p)) < _maxpoolsize p ->
  getConnection E (opened w) = None ->
  handOut E (p, w) = (Done (CbErr (ConnectError (opened w))), (p, bump_opened w)).
Proof.
  intros H Hlt Hh. unfold handOut. rewrite (mbind_done _ _ _ _ _ (getp_run _)).
  cbn [fst]. rewrite H. replace (_ <? _) with true by (symmetry; by apply Z.ltb_lt).
  unfold try_catch.
  by rewrite (mbind_throw _ _ _ _ _ (addConnectionSync_fail E p w Hh)).
Qed.

Lemma handOut_exhausted p w :
  _pool p = [] -> _maxpoolsize p <= Z.of_nat (length (_reserved p)) ->
  handOut E (p, w) =
  (Done (CbErr (Error "No more pool connections available")), (p, w)).
Proof.
  intros H Hge. unfold handOut. rewrite (mbind_done _ _ _ _ _ (getp_run _)).
  cbn [fst]. rewrite H. by replace (_ <? _) with false by (symmetry; by apply Z.ltb_ge).
Qed.

Lemma reserve_from_available (s s0 : State) :
  _closeIdleConnections E s = (Done tt, s0) ->
  _pool s0.1 ≠ [] ->
  _minpoolsize s0.1 <= total s0.1 ->
  exists c rest w',
    reserve E s =
      (Done (CbOk c), (set_reserved (c :: _reserved s0.1) (set_pool rest s0.1), w')) /\
    c :: rest ≡ₚ _pool s0.1 /\
    opened w' = opened s0.2 /\ drawn w' = drawn s0.2 /\ closes w' = closes s0.2.
Proof.
  intros H0 Hne Hmin.
  destruct (prepare_after_eviction s s0 H0) as (l1 & w1 & Hprep & Hperm & Hw).
  assert (Hl1 : length l1 = length (_pool s0.1)) by (by rewrite Hperm).
  destruct l1 as [|c rest].
  { destruct (_pool s0.1); [done|cbn in Hl1; lia]. }
  exists c, rest, w1. split; [|split; [done|]].
  - rewrite (reserve_prepared _ _ Hprep).
    assert (Hskip : topUpToMin E (set_pool (c :: rest) s0.1, w1)
                    = (Done tt, (set_pool (c :: rest) s0.1, w1))).
    { apply topUpToMin_skip. cbn [fst _pool _reserved _minpoolsize set_pool].
      unfold total in Hmin. rewrite length_app, Hl1. lia. }
    rewrite (mbind_done _ _ _ _ _ Hskip).
    erewrite handOut_available by reflexivity. done.
  - destruct Hw as (_ & ? & ? & ? & _). done.
Qed.

End Reserve.

(** ** reserve: top-up and growth *)

Lemma length_created E p w n : length (created E p w n) = n.
Proof. unfold created. by rewrite length_fmap, length_seq. Qed.

Lemma created_ext E p w p' w' n :
  _keepalive p' = _keepalive p -> _maxidle p' = _maxidle p ->
  now w' = now w -> opened w' = opened w -> drawn w' = drawn w ->
  created E p' w' n = created E p w n.
Proof.
  intros H1 H2 H3 H4 H5. unfold created, fresh_record.
  by rewrite H1, H2, H3, H4, H5.
Qed.

Section ReserveClaims.

Variable E : Env.

(** C6: the idle eviction is the first thing [reserve] does; it never changes
    the reserved array; it does nothing when [_maxidle] is not set; and when
    it is set to [m], on an available array of pooled records whose closes do
    not throw, it closes, from the last element to the first, exactly the
    records whose [lastIdle] is strictly below [now - m], and removes exactly
    those. *)
Theorem idle_eviction_removes_exactly_the_idle (s : State) :
  (forall s0, _closeIdleConnections E s = (Done tt, s0) ->
     reserve E s = (shuffle E;; topUpToMin E;; handOut E) s0) /\
  _reserved (_closeIdleConnections E s).2.1 = _reserved s.1 /\
  (truthy (_maxidle s.1) = false -> _closeIdleConnections E s = (Done tt, s)) /\
  (forall m,
     _maxidle s.1 = Some m -> m ≠ 0 ->
     (forall k h, close_result E k h ≠ FailsNow) ->
     (forall c, c ∈ _pool s.1 -> exists h, conn c = ConnObj h) ->
     exists s',
       _closeIdleConnections E s = (Done tt, s') /\
       _pool s'.1 = filter (fun c => ~ idle_before (now s.2 - m) c) (_pool s.1) /\
       closes s'.2 =
         closes s.2
         ++ reverse (handles (filter (idle_before (now s.2 - m)) (_pool s.1))) /\
       _reserved s'.1 = _reserved s.1).
Proof.
  split; [|split; [|split]].
  - intros s0 H0. rewrite reserve_stages. by rewrite (mbind_done _ _ _ _ _ H0).
  - destruct (closeIdleConnections_frame E s) as (l' & -> & _). done.
  - apply closeIdleConnections_off.
  - intros m Hm Hm0 Hclose Hrec.
    destruct (closeIdleConnections_on E s m Hm Hm0 Hclose Hrec) as (w' & H1 & H2 & _).
    eexists. split; [exact H1|]. done.
Qed.

Lemma reserve_with_top_up (s s0 : State) (n : nat) :
  _closeIdleConnections E s = (Done tt, s0) ->
  (0 < n)%nat ->
  Z.of_nat (length (_pool s0.1) + length (_reserved s0.1) + n) = _minpoolsize s0.1 ->
  (forall k, (k < n)%nat -> is_Some (getConnection E (opened s0.2 + k))) ->
  exists shuffled c rest w',
    shuffled ≡ₚ _pool s0.1 /\
    reserve E s =
      (Done (CbOk c), (set_reserved (c :: _reserved s0.1) (set_pool rest s0.1), w')) /\
    c :: rest = reverse (created E s0.1 s0.2 n) ++ shuffled /\
    opened w' = (opened s0.2 + n)%nat.
Proof.
  intros H0 Hpos Hmin Hok.
  destruct (prepare_after_eviction E s s0 H0) as (l1 & w1 & Hprep & Hperm & Hw).
  destruct s0 as [p0 w0]. cbn [fst snd] in *.
  destruct Hw as (Hnow & Hop & Hdr & _).
  assert (Hlen : length l1 = length (_pool p0)) by (by rewrite Hperm).
  rewrite (reserve_prepared E s _ Hprep).
  assert (Htop : topUpToMin E (set_pool l1 p0, w1) =
    (Done tt, (set_pool (reverse (created E p0 w0 n) ++ l1) p0, grow n w1))).
  { rewrite topUpToMin_run; cbn [fst snd _pool _reserved _minpoolsize set_pool].
    - rewrite length_app, Hlen.
      replace (Z.to_nat _) with n by lia.
      rewrite topUp_ok by (intros k Hk; rewrite Hop; by apply Hok).
      cbn [_pool set_pool]. rewrite set_pool_set_pool.
      by rewrite (created_ext E p0 w0 (set_pool l1 p0) w1).
    - rewrite length_app, Hlen. lia. }
  rewrite (mbind_done _ _ _ _ _ Htop).
  pose proof (length_created E p0 w0 n) as Hcn.
  destruct (reverse (created E p0 w0 n)) as [|c rest] eqn:Hrev.
  { apply (f_equal length) in Hrev. rewrite length_reverse in Hrev. cbn in Hrev. lia. }
  exists l1, c, (rest ++ l1), (grow n w1). split; [done|]. split.
  { erewrite handOut_available by reflexivity. done. }
  split; [done|]. cbn. lia.
Qed.

(** C4: when, after the idle eviction, the two arrays together hold [n > 0]
    elements less than [_minpoolsize], and the driver manager delivers the
    next [n] connections, then [reserve] creates exactly [n] records, each
    put in front of the (shuffled) available array, and only then hands out
    the first element, which is the newest record; the two arrays then hold
    [_minpoolsize] elements together. *)
Theorem reserve_tops_up_to_min (s s0 : State) (n : nat) :
  _closeIdleConnections E s = (Done tt, s0) ->
  (0 < n)%nat ->
  Z.of_nat (length (_pool s0.1) + length (_reserved s0.1) + n) = _minpoolsize s0.1 ->
  (forall k, (k < n)%nat -> is_Some (getConnection E (opened s0.2 + k))) ->
  exists shuffled c s',
    shuffled ≡ₚ _pool s0.1 /\
    reserve E s = (Done (CbOk c), s') /\
    length (created E s0.1 s0.2 n) = n /\
    c :: _pool s'.1 = reverse (created E s0.1 s0.2 n) ++ shuffled /\
    _reserved s'.1 = c :: _reserved s0.1 /\
    Z.of_nat (length (_pool s'.1) + length (_reserved s'.1)) = _minpoolsize s0.1 /\
    opened s'.2 = (opened s0.2 + n)%nat.
Proof.
  intros H0 Hpos Hmin Hok.
  destruct (reserve_with_top_up s s0 n H0 Hpos Hmin Hok)
    as (l1 & c & rest & w' & Hperm & Hrun & Hrest & Hop).
  exists l1, c. eexists. split; [done|]. split; [exact Hrun|].
  cbn [fst snd _pool _reserved set_pool set_reserved].
  split; [apply length_created|]. split; [done|]. split; [done|]. split; [|done].
  apply (f_equal length) in Hrest.
  rewrite length_app, length_reverse, length_created in Hrest.
  assert (length l1 = length (_pool s0.1)) by (by rewrite Hperm).
  cbn [length] in *. lia.
Qed.

(** C10: when, after the idle eviction, [n] records are missing and the
    creation number [k < n] of the top-up loop is the first that fails,
    [reserve] throws the driver manager's exception instead of calling back,
    and the [k] records made before it are in front of the available
    array. *)
Theorem reserve_topup_failure_throws (s s0 : State) (n k : nat) :
  _closeIdleConnections E s = (Done tt, s0) ->
  Z.of_nat (length (_pool s0.1) + length (_reserved s0.1) + n) = _minpoolsize s0.1 ->
  (k < n)%nat ->
  (forall j, (j < k)%nat -> is_Some (getConnection E (opened s0.2 + j))) ->
  getConnection E (opened s0.2 + k) = None ->
  exists shuffled s',
    shuffled ≡ₚ _pool s0.1 /\
    reserve E s = (Throw (ConnectError (opened s0.2 + k)), s') /\
    (forall r : reply connobj, (reserve E s).1 ≠ Done r) /\
    length (created E s0.1 s0.2 k) = k /\
    _pool s'.1 = reverse (created E s0.1 s0.2 k) ++ shuffled /\
    _reserved s'.1 = _reserved s0.1.
Proof.
  intros H0 Hmin Hk Hok Hfail.
  destruct (prepare_after_eviction E s s0 H0) as (l1 & w1 & Hprep & Hperm & Hw).
  destruct s0 as [p0 w0]. cbn [fst snd] in *.
  destruct Hw as (Hnow & Hop & Hdr & _).
  assert (Hlen : length l1 = length (_pool p0)) by (by rewrite Hperm).
  assert (Hrun : reserve E s =
    (Throw (ConnectError (opened w0 + k)),
     (set_pool (reverse (created E p0 w0 k) ++ l1) p0, bump_opened (grow k w1)))).
  { rewrite (reserve_prepared E s _ Hprep).
    apply mbind_throw.
    rewrite topUpToMin_run; cbn [fst snd _pool _reserved _minpoolsize set_pool].
    - rewrite length_app, Hlen.
      replace (Z.to_nat _) with n by lia.
      rewrite (topUp_fail E n k) by (rewrite ?Hop; try done; intros j Hj; rewrite Hop; by apply Hok).
      cbn [_pool set_pool]. rewrite set_pool_set_pool, Hop.
      by rewrite (created_ext E p0 w0 (set_pool l1 p0) w1).
    - rewrite length_app, Hlen. lia. }
  exists l1. eexists. split; [done|]. split; [exact Hrun|].
  split; [by rewrite Hrun|]. split; [apply length_created|]. done.
Qed.

(** C5, as amended: when, after the idle eviction of the call, the available
    array is empty, no top-up is due and the reserved array is below
    [_maxpoolsize], a failure of the driver manager is handed to the
    callback and the failed creation leaves nothing behind: the pool object
    is the one the eviction left, with the available array empty, the
    reserved array as before the call and no record added, and nothing is
    closed after the eviction.  When the available array was already empty
    at the call, nothing of the pool object changed. *)
Theorem reserve_growth_failure_leaves_pool (s s0 : State) :
  _closeIdleConnections E s = (Done tt, s0) ->
  _pool s0.1 = [] ->
  _minpoolsize s0.1 <= Z.of_nat (length (_reserved s0.1)) ->
  Z.of_nat (length (_reserved s0.1)) < _maxpoolsize s0.1 ->
  getConnection E (opened s0.2) = None ->
  reserve E s = (Done (CbErr (ConnectError (opened s0.2))), (s0.1, bump_opened s0.2)) /\
  _reserved s0.1 = _reserved s.1 /\
  (_pool s.1 = [] -> s0.1 = s.1).
Proof.
  intros H0 Hempty Hmin Hmax Hfail.
  assert (Hprep : prepare E s = (Done tt, s0)).
  { unfold prepare. rewrite (mbind_done _ _ _ _ _ H0). by apply shuffle_empty. }
  split; [|split].
  - rewrite (reserve_prepared E s _ Hprep).
    assert (Hskip : topUpToMin E s0 = (Done tt, s0)).
    { apply topUpToMin_skip. rewrite Hempty. cbn. lia. }
    rewrite (mbind_done _ _ _ _ _ Hskip).
    destruct s0 as [p0 w0]. by apply handOut_grow_fails.
  - destruct (closeIdleConnections_frame E s) as (l' & Hl & _).
    rewrite H0 in Hl. cbn [snd] in Hl. by rewrite Hl.
  - intros Hs. rewrite (closeIdleConnections_empty E s Hs) in H0. by injection H0 as <-.
Qed.

End ReserveClaims.

Lemma idle_eviction_removes_exactly_the_idle_witness :
  exists s',
    _closeIdleConnections env_ok
      (set_pool [record 0 (Some 0); record 1 (Some 1000)]
         (new_Pool (config_2_3 (Some 1000))), advance 1500 world0)
    = (Done tt, s') /\
    _pool s'.1 = [record 1 (Some 1000)] /\ closes s'.2 = [0%nat].
Proof.
  destruct (idle_eviction_removes_exactly_the_idle env_ok
      (set_pool [record 0 (Some 0); record 1 (Some 1000)]
         (new_Pool (config_2_3 (Some 1000))), advance 1500 world0))
    as (_ & _ & _ & H).
  destruct (H 1000) as (s' & H1 & H2 & H3 & _).
  - reflexivity.
  - discriminate.
  - discriminate.
  - intros c Hc. cbn in Hc.
    repeat (apply elem_of_cons in Hc as [-> | Hc]; [eexists; reflexivity|]).
    by apply elem_of_nil in Hc.
  - exists s'. split; [exact H1|]. split; [rewrite H2|rewrite H3]; reflexivity.
Defined.

Lemma reserve_tops_up_to_min_witness :
  exists shuffled c s',
    shuffled ≡ₚ _pool state_one_idle_left.1 /\
    reserve env_ok state_two_idle = (Done (CbOk c), s') /\
    length (created env_ok state_one_idle_left.1 state_one_idle_left.2 1) = 1%nat /\
    c :: _pool s'.1 =
      reverse (created env_ok state_one_idle_left.1 state_one_idle_left.2 1) ++ shuffled /\
    _reserved s'.1 = c :: _reserved state_one_idle_left.1 /\
    Z.of_nat (length (_pool s'.1) + length (_reserved s'.1)) =
      _minpoolsize state_one_idle_left.1 /\
    opened s'.2 = (opened state_one_idle_left.2 + 1)%nat.
Proof.
  apply (reserve_tops_up_to_min env_ok state_two_idle state_one_idle_left 1).
  - reflexivity.
  - lia.
  - reflexivity.
  - intros k _. eexists. reflexivity.
Defined.

Lemma reserve_topup_failure_throws_witness :
  exists shuffled s',
    shuffled ≡ₚ [] /\
    reserve (env_fails_from 3) (new_Pool (config_2_3 None), grow 2 world0)
      = (Throw (ConnectError 3), s') /\
    (forall r : reply connobj,
       (reserve (env_fails_from 3) (new_Pool (config_2_3 None), grow 2 world0)).1
       ≠ Done r) /\
    length (created (env_fails_from 3) (new_Pool (config_2_3 None)) (grow 2 world0) 1)
      = 1%nat /\
    _pool s'.1 =
      reverse (created (env_fails_from 3) (new_Pool (config_2_3 None)) (grow 2 world0) 1)
      ++ shuffled /\
    _reserved s'.1 = [].
Proof.
  apply (reserve_topup_failure_throws (env_fails_from 3)
           (new_Pool (config_2_3 None), grow 2 world0)
           (new_Pool (config_2_3 None), grow 2 world0) 2 1).
  - reflexivity.
  - reflexivity.
  - lia.
  - intros j Hj. assert (j = 0%nat) as -> by lia. eexists. reflexivity.
  - reflexivity.
Defined.

Lemma reserve_growth_failure_leaves_pool_witness :
  reserve (env_fails_from 1) state_one_reserved =
    (Done (CbErr (ConnectError 1)),
     (state_one_reserved.1, bump_opened state_one_reserved.2)) /\
  _reserved state_one_reserved.1 = _reserved state_one_reserved.1 /\
  (_pool state_one_reserved.1 = [] -> state_one_reserved.1 = state_one_reserved.1).
Proof.
  apply (reserve_growth_failure_leaves_pool (env_fails_from 1)
           state_one_reserved state_one_reserved).
  - reflexivity.
  - reflexivity.
  - cbn. lia.
  - cbn. lia.
  - reflexivity.
Defined.

(** C5, as stated, fails: with one reserved record, one idle record available
    and a driver manager that fails, [reserve] hands the ConnectError to the
    callback, but the same call has closed the idle connection and emptied
    the available array before. *)
Lemma reserve_growth_failure_after_eviction_changes_available :
  _pool state_idle_and_reserved.1 = [record 1 (Some 0)] /\
  _pool (_closeIdleConnections (env_fails_from 2) state_idle_and_reserved).2.1 = [] /\
  Z.of_nat (length (_reserved state_idle_and_reserved.1))
    < _maxpoolsize state_idle_and_reserved.1 /\
  getConnection (env_fails_from 2) (opened state_idle_and_reserved.2) = None /\
  (reserve (env_fails_from 2) state_idle_and_reserved).1
    = Done (CbErr (ConnectError 2)) /\
  _pool (reserve (env_fails_from 2) state_idle_and_reserved).2.1 = [] /\
  _pool (reserve (env_fails_from 2) state_idle_and_reserved).2.1
    ≠ _pool state_idle_and_reserved.1 /\
  closes state_idle_and_reserved.2 = [] /\
  closes (reserve (env_fails_from 2) state_idle_and_reserved).2.2 = [1%nat].
Proof.
  repeat split; try reflexivity. discriminate.
Qed.

(** ** initialize *)

Lemma pooled_created E p w n : pooled (created E p w n).
Proof.
  intros c Hc. unfold created in Hc. apply list_elem_of_fmap in Hc as (k & -> & _).
  eexists. reflexivity.
Qed.

Lemma pooled_app l1 l2 : pooled l1 -> pooled l2 -> pooled (l1 ++ l2).
Proof. intros H1 H2 c Hc. apply elem_of_app in Hc as [?|?]; eauto. Qed.

Lemma pooled_sub l1 l2 : (forall c, c ∈ l1 -> c ∈ l2) -> pooled l2 -> pooled l1.
Proof. intros H H2 c Hc. eauto. Qed.

Section Initialize.

Variable E : Env.

Lemma created_step p w n h :
  getConnection E (opened w) = Some h ->
  created E p w (S n) =
  fresh_record E p w 0 h :: created E p (bump_drawn (bump_opened w)) n.
Proof.
  intros H. by rewrite (created_S E p w n h H).
Qed.

Lemma addConnection_ok p w h :
  getConnection E (opened w) = Some h ->
  addConnection E (_keepalive p) (_maxidle p) (p, w) =
  (Done (CbOk (fresh_record E p w 0 h)), (p, bump_drawn (bump_opened w))).
Proof.
  intros H. unfold addConnection, uuid_next, getTime. mstep.
  rewrite H. unfold fresh_record. rewrite Nat.add_0_r.
  by destruct (truthy (_maxidle p)).
Qed.

Lemma times_addConnection_ok (n : nat) : forall p w,
  (forall k, (k < n)%nat -> is_Some (getConnection E (opened w + k))) ->
  times n (addConnection E (_keepalive p) (_maxidle p)) (p, w) =
  (Done (CbOk (created E p w n)), (p, grow n w)).
Proof.
  induction n as [|n IH]; intros p w H.
  - cbn. by rewrite grow_0.
  - destruct (H 0%nat) as [h Hh]; [lia|]. rewrite Nat.add_0_r in Hh.
    cbn [times]. rewrite (mbind_done _ _ _ _ _ (addConnection_ok p w h Hh)).
    assert (Hrest : forall k, (k < n)%nat ->
              is_Some (getConnection E (opened (bump_drawn (bump_opened w)) + k))).
    { intros k Hk. cbn.
      replace (S (opened w + k)) with (opened w + S k)%nat by lia. apply H. lia. }
    rewrite (mbind_done _ _ _ _ _ (IH p _ Hrest)).
    by rewrite (created_step p w n h Hh), grow_S.
Qed.

Lemma initialize_ok p w :
  _drivername p = "" \/ driver_ok E = true ->
  0 <= _minpoolsize p ->
  (forall k, (k < Z.to_nat (_minpoolsize p))%nat ->
             is_Some (getConnection E (opened w + k))) ->
  initialize E (p, w) =
  (Done (CbOk tt),
   (set_pool (_pool p ++ created E p w (Z.to_nat (_minpoolsize p))) p,
    grow (Z.to_nat (_minpoolsize p)) w)).
Proof.
  intros Hdrv Hpos Hok.
  assert (Hadd : _addConnectionsOnInitialize E (p, w) =
    (Done (CbOk tt),
     (set_pool (_pool p ++ created E p w (Z.to_nat (_minpoolsize p))) p,
      grow (Z.to_nat (_minpoolsize p)) w))).
  { unfold _addConnectionsOnInitialize.
    rewrite (mbind_done _ _ _ _ _ (getp_run _)). cbn [fst].
    rewrite asyncjs_times_nonneg by done.
    by rewrite (mbind_done _ _ _ _ _ (times_addConnection_ok _ p w Hok)). }
  unfold initialize. rewrite (mbind_done _ _ _ _ _ (getp_run _)). cbn [fst].
  case_bool_decide as Hn; [|done].
  destruct Hdrv as [Hd | Hd]; [done | by rewrite Hd].
Qed.

End Initialize.

(** ** reserve when the driver manager and the closes behave *)

Section ReserveReturns.

Variable E : Env.
Hypothesis factory_ok : forall n, is_Some (getConnection E n).
Hypothesis close_ok : forall k h, close_result E k h ≠ FailsNow.

Lemma eviction_returns s :
  pooled (_pool s.1) ->
  exists l0 w0,
    _closeIdleConnections E s = (Done tt, (set_pool l0 s.1, w0)) /\
    l0 `sublist_of` _pool s.1 /\ same_counters s.2 w0.
Proof.
  intros Hp.
  destruct (closeIdleConnections_frame E s) as (l' & H1 & H2 & H3).
  assert (Hdone : exists s0, _closeIdleConnections E s = (Done tt, s0)).
  { destruct (truthy (_maxidle s.1)) eqn:Ht.
    - destruct (_maxidle s.1) as [m|] eqn:Hm; [|done].
      destruct (closeIdleConnections_on E s m) as (w' & Hrun & _); try done.
      + intros ->. done.
      + eauto.
    - exists s. by apply closeIdleConnections_off. }
  destruct Hdone as [[p0 w0] Hrun]. rewrite Hrun in *. cbn [fst snd] in *. subst p0.
  by exists l', w0.
Qed.

(** While the reserved array is below [_minpoolsize], [reserve] always hands
    out a record, from the available array or from the top-up. *)
Lemma reserve_below_min (Q : connobj -> Prop) s :
  (forall p' w' n x, _keepalive p' = _keepalive s.1 -> x ∈ created E p' w' n -> Q x) ->
  (forall x, x ∈ _pool s.1 -> Q x) ->
  pooled (_pool s.1) ->
  Z.of_nat (length (_reserved s.1)) < _minpoolsize s.1 ->
  exists c rest w',
    reserve E s =
      (Done (CbOk c), (set_reserved (c :: _reserved s.1) (set_pool rest s.1), w')) /\
    (forall x, x ∈ c :: rest -> Q x) /\
    pooled (c :: rest) /\
    _minpoolsize s.1 <= Z.of_nat (length (c :: rest) + length (_reserved s.1)) /\
    Z.of_nat (length (c :: rest) + length (_reserved s.1))
      <= Z.max (_minpoolsize s.1) (Z.of_nat (length (_pool s.1) + length (_reserved s.1))).
Proof.
  intros HQnew HQ Hp Hlt.
  destruct (eviction_returns s Hp) as (l0 & w0 & Hev & Hsub & Hsc).
  pose proof (sublist_length _ _ Hsub) as Hlen0.
  assert (Hp0 : pooled l0).
  { eapply pooled_sub; [|exact Hp]. intros c Hc. by eapply elem_of_sublist. }
  assert (HQ0 : forall x, x ∈ l0 -> Q x).
  { intros x Hx. apply HQ. by eapply elem_of_sublist. }
  destruct s as [p w]. cbn [fst snd] in *.
  destruct (decide (Z.of_nat (length l0 + length (_reserved p)) < _minpoolsize p))
    as [Hdue|Hnot].
  - destruct (reserve_with_top_up E (p, w) (set_pool l0 p, w0)
                (Z.to_nat (_minpoolsize p - Z.of_nat (length l0 + length (_reserved p)))))
      as (l1 & c & rest & w' & Hperm & Hrun & Hrest & Hop); cbn [fst snd _pool _reserved
        _minpoolsize set_pool]; [done|lia|lia|auto|].
    cbn [fst snd _pool _reserved set_pool] in *.
    rewrite set_pool_set_pool in Hrun.
    exists c, rest, w'. split; [exact Hrun|].
    assert (Hl1 : length l1 = length l0) by (by rewrite Hperm).
    split; [|split; [|split]].
    + rewrite Hrest. intros x Hx. apply elem_of_app in Hx as [Hx | Hx].
      * rewrite elem_of_reverse in Hx. by eapply (HQnew (set_pool l0 p)).
      * apply HQ0. by rewrite <- Hperm.
    + rewrite Hrest. apply pooled_app.
      * intros x Hx. rewrite elem_of_reverse in Hx.
        exact (pooled_created E _ _ _ x Hx).
      * eapply pooled_sub; [|exact Hp0]. intros x Hx. by rewrite <- Hperm.
    + rewrite Hrest, length_app, length_reverse, length_created. lia.
    + rewrite Hrest, length_app, length_reverse, length_created. lia.
  - destruct (prepare_after_eviction E (p, w) _ Hev) as (l1 & w1 & Hprep & Hperm & Hw).
    cbn [fst snd _pool set_pool] in *. rewrite set_pool_set_pool in Hprep.
    assert (Hl1 : length l1 = length l0) by (by rewrite Hperm).
    destruct l1 as [|c rest]; [cbn in Hl1; lia|].
    exists c, rest, w1. split; [|split; [|split; [|split]]].
    + rewrite (reserve_prepared E _ _ Hprep).
      assert (Hskip : topUpToMin E (set_pool (c :: rest) p, w1)
                      = (Done tt, (set_pool (c :: rest) p, w1))).
      { apply topUpToMin_skip. cbn [fst _pool _reserved _minpoolsize set_pool].
        rewrite length_app, Hl1. lia. }
      rewrite (mbind_done _ _ _ _ _ Hskip).
      erewrite handOut_available by reflexivity. done.
    + intros x Hx. apply HQ0. by rewrite <- Hperm.
    + eapply pooled_sub; [|exact Hp0]. intros x Hx. by rewrite <- Hperm.
    + rewrite Hl1. lia.
    + rewrite Hl1. lia.
Qed.

Lemma made_by_created p w n x :
  x ∈ created E p w n -> made_by E (ka_enabled (_keepalive p)) x.
Proof.
  intros Hx. unfold created in Hx. apply list_elem_of_fmap in Hx as (k & -> & _).
  destruct (factory_ok (opened w + k)) as [h Hh]. rewrite Hh.
  exists (opened w + k)%nat, (drawn w + k)%nat, h. done.
Qed.

Lemma made_by_pooled ka l : (forall x, x ∈ l -> made_by E ka x) -> pooled l.
Proof. intros H c Hc. destruct (H c Hc) as (k & j & h & _ & Hh & _). by exists h. Qed.

(** With nothing available and no top-up due, only the hand-out stage runs. *)
Lemma reserve_empty_available s :
  _pool s.1 = [] ->
  _minpoolsize s.1 <= Z.of_nat (length (_reserved s.1)) ->
  reserve E s = handOut E s.
Proof.
  intros Hempty Hmin. rewrite (reserve_prepared E s s (prepare_empty E s Hempty)).
  assert (Hskip : topUpToMin E s = (Done tt, s)).
  { apply topUpToMin_skip. rewrite Hempty. cbn. lia. }
  by rewrite (mbind_done _ _ _ _ _ Hskip).
Qed.

(** C2: a pool made with [minpoolsize] 2 and [maxpoolsize] 3 is initialized
    with two available records, made from the first two connections the
    driver manager delivers; whatever time passes between the calls, three
    calls of [reserve] each hand out a record that wraps a delivered
    connection (the two initial records, in some order, when no maximal
    idle time is set), the third one finding nothing available and putting
    the record it makes from the connection just delivered straight into
    the reserved array; a fourth call is answered with the error
    "No more pool connections available" and changes nothing. *)
Theorem three_reserves_then_exhausted (config : Config) (w : World) (t1 t2 t3 t4 : Z) :
  cfg_minpoolsize config = Some 2 ->
  cfg_maxpoolsize config = Some 3 ->
  cfg_drivername config = "" \/ driver_ok E = true ->
  exists s0 c1 s1 c2 s2 c3 s3 a b h0 h1 h3,
    initialize E (new_Pool config, w) = (Done (CbOk tt), s0) /\
    length (_pool s0.1) = 2%nat /\ _reserved s0.1 = [] /\
    _pool s0.1 = [a; b] /\
    getConnection E (opened w) = Some h0 /\ conn a = ConnObj h0 /\
    uuid a = PStr (uuid_v4 E (drawn w)) /\
    getConnection E (opened w + 1) = Some h1 /\ conn b = ConnObj h1 /\
    uuid b = PStr (uuid_v4 E (drawn w + 1)) /\
    reserve E (step E (Tick t1) s0) = (Done (CbOk c1), s1) /\
    made_by E (ka_enabled (_keepalive (new_Pool config))) c1 /\
    reserve E (step E (Tick t2) s1) = (Done (CbOk c2), s2) /\
    made_by E (ka_enabled (_keepalive (new_Pool config))) c2 /\
    _pool s2.1 = [] /\ _reserved s2.1 = [c2; c1] /\
    (truthy (_maxidle (new_Pool config)) = false -> [c1; c2] ≡ₚ [a; b]) /\
    reserve E (step E (Tick t3) s2) = (Done (CbOk c3), s3) /\
    getConnection E (opened s2.2) = Some h3 /\
    c3 = fresh_record E s2.1 (advance t3 s2.2) 0 h3 /\
    conn c3 = ConnObj h3 /\ uuid c3 = PStr (uuid_v4 E (drawn s2.2)) /\
    _pool s3.1 = [] /\ _reserved s3.1 = [c3; c2; c1] /\
    opened s3.2 = S (opened s2.2) /\
    reserve E (step E (Tick t4) s3) =
      (Done (CbErr (Error "No more pool connections available")), step E (Tick t4) s3).
Proof.
  intros Hmin Hmax Hdrv.
  assert (Hcfg : _minpoolsize (new_Pool config) = 2 /\ _maxpoolsize (new_Pool config) = 3
                 /\ _pool (new_Pool config) = [] /\ _reserved (new_Pool config) = []).
  { unfold new_Pool. cbn. by rewrite Hmin, Hmax. }
  destruct Hcfg as (Hmin0 & Hmax0 & Hpool0 & Hres0).
  change (cfg_drivername config) with (_drivername (new_Pool config)) in Hdrv.
  remember (new_Pool config) as p0 eqn:Hp0def. clear Hp0def.
  assert (Hpos : 0 <= _minpoolsize p0) by lia.
  pose proof (initialize_ok E p0 w Hdrv Hpos (fun k _ => factory_ok _)) as Hinit.
  rewrite Hmin0, Hpool0 in Hinit. cbn [app] in Hinit.
  destruct (factory_ok (opened w)) as [h0 Hh0].
  destruct (factory_ok (opened w + 1)) as [h1 Hh1].
  assert (Hl0def : created E p0 w (Z.to_nat 2) =
                   [fresh_record E p0 w 0 h0; fresh_record E p0 w 1 h1]).
  { unfold created. change (Z.to_nat 2) with 2%nat. cbn [seq fmap list_fmap].
    by rewrite Nat.add_0_r, Hh0, Hh1. }
  rewrite Hl0def in Hinit.
  set (ka := ka_enabled (_keepalive p0)).
  remember [fresh_record E p0 w 0 h0; fresh_record E p0 w 1 h1] as l0 eqn:Hl0.
  assert (Hlen0 : length l0 = 2%nat) by (by subst l0).
  assert (HQ0 : forall x, x ∈ l0 -> made_by E ka x).
  { intros x Hx. rewrite <- Hl0def in Hl0. subst l0.
    exact (made_by_created p0 w _ x Hx). }
  assert (HQnew : forall p' w' n x,
            _keepalive p' = _keepalive p0 -> x ∈ created E p' w' n -> made_by E ka x).
  { intros p' w' n x Hk Hx. unfold ka. rewrite <- Hk.
    exact (made_by_created p' w' n x Hx). }
  (* first call *)
  destruct (reserve_below_min (made_by E ka)
              (set_pool l0 p0, advance t1 (grow (Z.to_nat 2) w)))
    as (c1 & rest1 & w1 & Hr1 & HQ1 & Hp1 & Hlo1 & Hhi1);
    cbn [fst snd _pool _reserved _minpoolsize _keepalive set_pool] in *;
    [done|done|by eapply made_by_pooled|rewrite Hres0, Hmin0; cbn; lia|].
  rewrite Hres0, Hmin0, Hlen0 in *.
  rewrite set_pool_set_pool in Hr1.
  assert (Hrest1 : length rest1 = 1%nat) by (cbn [length] in *; lia).
  (* second call *)
  destruct (reserve_below_min (made_by E ka)
              (set_reserved [c1] (set_pool rest1 p0), advance t2 w1))
    as (c2 & rest2 & w2 & Hr2 & HQ2 & Hp2 & Hlo2 & Hhi2);
    cbn [fst snd _pool _reserved _minpoolsize _keepalive set_pool set_reserved] in *.
  { done. }
  { intros x Hx. apply HQ1. by right. }
  { intros x Hx. apply Hp1. by right. }
  { rewrite Hmin0. cbn. lia. }
  rewrite Hmin0, Hrest1 in *.
  assert (rest2 = []) as -> by (destruct rest2; [done|cbn [length] in *; lia]).
  (* without a maximal idle time the two records are the initial ones *)
  assert (Hperm12 : truthy (_maxidle p0) = false ->
            [c1; c2] ≡ₚ [fresh_record E p0 w 0 h0; fresh_record E p0 w 1 h1]).
  { intros Hoff. rewrite <- Hl0.
    destruct (reserve_from_available E _ _
                (closeIdleConnections_off E
                   (set_pool l0 p0, advance t1 (grow (Z.to_nat 2) w)) Hoff))
      as (c & rest & w' & Hrun & Hperm & _).
    { cbn. by destruct l0. }
    { unfold total. cbn [fst _pool _reserved _minpoolsize set_pool].
      rewrite Hres0, Hmin0, Hlen0. cbn. lia. }
    rewrite Hr1 in Hrun. injection Hrun as <- Hp _.
    subst rest. cbn in Hperm.
    destruct (reserve_from_available E _ _
                (closeIdleConnections_off E
                   (set_reserved [c1] (set_pool rest1 p0), advance t2 w1) Hoff))
      as (c & rest & w'' & Hrun & Hperm' & _).
    { cbn. by destruct rest1. }
    { unfold total. cbn [fst _pool _reserved _minpoolsize set_pool set_reserved].
      rewrite Hmin0, Hrest1. cbn. lia. }
    rewrite Hr2 in Hrun. injection Hrun as <- Hp _.
    subst rest. cbn in Hperm'.
    by rewrite <- Hperm, <- Hperm'. }
  (* third call *)
  destruct (factory_ok (opened (advance t3 w2))) as [h3 Hh3].
  set (p2 := set_reserved [c2; c1] (set_pool [] (set_reserved [c1] (set_pool rest1 p0)))).
  assert (Hr3 : reserve E (p2, advance t3 w2) =
    (Done (CbOk (fresh_record E p2 (advance t3 w2) 0 h3)),
     (set_reserved (fresh_record E p2 (advance t3 w2) 0 h3 :: _reserved p2) p2,
      bump_drawn (bump_opened (advance t3 w2))))).
  { rewrite reserve_empty_available; [|done|cbn; rewrite Hmin0; lia].
    apply handOut_grow; [done|cbn; rewrite Hmax0; lia|done]. }
  set (c3 := fresh_record E p2 (advance t3 w2) 0 h3) in *.
  (* fourth call *)
  set (p3 := set_reserved (c3 :: _reserved p2) p2) in *.
  assert (Hr4 : forall w3, reserve E (p3, w3) =
    (Done (CbErr (Error "No more pool connections available")), (p3, w3))).
  { intros w3. rewrite reserve_empty_available; [|done|cbn; rewrite Hmin0; lia].
    apply handOut_exhausted; [done|cbn; rewrite Hmax0; lia]. }
  eexists _, c1, _, c2, _, c3, _, (fresh_record E p0 w 0 h0), (fresh_record E p0 w 1 h1),
    h0, h1, h3.
  split; [exact Hinit|]. cbn [fst snd step _pool _reserved set_pool].
  split; [done|]. split; [done|]. split; [by subst l0|].
  split; [done|]. split; [done|]. split; [cbn; by rewrite Nat.add_0_r|].
  split; [done|]. split; [done|]. split; [done|].
  split; [exact Hr1|]. split; [apply HQ1; by left|].
  cbn [fst snd]. split; [exact Hr2|]. split; [apply HQ2; by left|]. cbn [fst snd].
  split; [done|]. split; [done|]. split; [exact Hperm12|].
  split; [exact Hr3|]. cbn [fst snd].
  split; [exact Hh3|]. split; [done|]. split; [done|].
  split; [cbn; by rewrite Nat.add_0_r|].
  split; [done|]. split; [done|]. split; [done|]. apply Hr4.
Qed.

End ReserveReturns.

Lemma three_reserves_then_exhausted_witness :
  exists s0 c1 s1 c2 s2 c3 s3 a b h0 h1 h3,
    initialize env_ok (new_Pool (config_2_3 None), world0) = (Done (CbOk tt), s0) /\
    length (_pool s0.1) = 2%nat /\ _reserved s0.1 = [] /\
    _pool s0.1 = [a; b] /\
    getConnection env_ok (opened world0) = Some h0 /\ conn a = ConnObj h0 /\
    uuid a = PStr (uuid_v4 env_ok (drawn world0)) /\
    getConnection env_ok (opened world0 + 1) = Some h1 /\ conn b = ConnObj h1 /\
    uuid b = PStr (uuid_v4 env_ok (drawn world0 + 1)) /\
    reserve env_ok (step env_ok (Tick 0) s0) = (Done (CbOk c1), s1) /\
    made_by env_ok (ka_enabled (_keepalive (new_Pool (config_2_3 None)))) c1 /\
    reserve env_ok (step env_ok (Tick 0) s1) = (Done (CbOk c2), s2) /\
    made_by env_ok (ka_enabled (_keepalive (new_Pool (config_2_3 None)))) c2 /\
    _pool s2.1 = [] /\ _reserved s2.1 = [c2; c1] /\
    (truthy (_maxidle (new_Pool (config_2_3 None))) = false -> [c1; c2] ≡ₚ [a; b]) /\
    reserve env_ok (step env_ok (Tick 0) s2) = (Done (CbOk c3), s3) /\
    getConnection env_ok (opened s2.2) = Some h3 /\
    c3 = fresh_record env_ok s2.1 (advance 0 s2.2) 0 h3 /\
    conn c3 = ConnObj h3 /\ uuid c3 = PStr (uuid_v4 env_ok (drawn s2.2)) /\
    _pool s3.1 = [] /\ _reserved s3.1 = [c3; c2; c1] /\
    opened s3.2 = S (opened s2.2) /\
    reserve env_ok (step env_ok (Tick 0) s3) =
      (Done (CbErr (Error "No more pool connections available")),
       step env_ok (Tick 0) s3).
Proof.
  apply (three_reserves_then_exhausted env_ok); try reflexivity.
  - intros n. eexists. reflexivity.
  - discriminate.
  - by left.
Defined.

(** ** Identities *)

Lemma submseteq_NoDup {A} (l1 l2 : list A) : l1 ⊆+ l2 -> NoDup l2 -> NoDup l1.
Proof.
  intros Hsub Hnd. apply submseteq_Permutation in Hsub as [k Hk].
  rewrite Hk in Hnd. by apply NoDup_app in Hnd as (? & _ & _).
Qed.

Lemma mbind_snd {A B} (m : M A) (f : A -> M B) s :
  ((m ≫= f) s).2 = (m s).2 \/ exists a, ((m ≫= f) s).2 = (f a (m s).2).2.
Proof.
  unfold mbind, M_bind. destruct (m s) as [[a|e] s']; [right; by exists a|by left].
Qed.

Section Identities.

Variable E : Env.
Hypothesis uuid_v4_inj : forall i j, uuid_v4 E i = uuid_v4 E j -> i = j.

Lemma unique_ids_mono s p' w' :
  unique_ids E s -> entries p' ⊆+ entries s.1 -> (drawn s.2 <= drawn w')%nat ->
  unique_ids E (p', w').
Proof.
  intros [Hnd Hall] Hsub Hle. split; cbn [fst snd].
  - eapply submseteq_NoDup; [|exact Hnd]. by apply fmap_submseteq.
  - intros c Hc. destruct (Hall c) as (k & Hk & Hu).
    + by eapply elem_of_submseteq.
    + exists k. split; [lia|done].
Qed.

Lemma unique_ids_add s c p' w' :
  unique_ids E s -> uuid c = PStr (uuid_v4 E (drawn s.2)) ->
  entries p' ⊆+ c :: entries s.1 -> (drawn s.2 < drawn w')%nat ->
  unique_ids E (p', w').
Proof.
  intros [Hnd Hall] Hc Hsub Hlt. split; cbn [fst snd].
  - eapply submseteq_NoDup; [by apply fmap_submseteq|].
    cbn. apply NoDup_cons. split; [|done].
    intros Hin. apply list_elem_of_fmap in Hin as (c' & Hu & Hc').
    destruct (Hall c' Hc') as (k & Hk & Hu').
    rewrite Hc, Hu' in Hu. injection Hu as Hu. apply uuid_v4_inj in Hu. lia.
  - intros x Hx. eapply elem_of_submseteq in Hx; [|exact Hsub].
    apply elem_of_cons in Hx as [-> | Hx].
    + exists (drawn s.2). split; [lia|done].
    + destruct (Hall x Hx) as (k & Hk & Hu). exists k. split; [lia|done].
Qed.

Lemma keeps_ids_bind {A B} (m : M A) (f : A -> M B) :
  keeps_ids E m -> (forall a, keeps_ids E (f a)) -> keeps_ids E (m ≫= f).
Proof.
  intros Hm Hf s Hs. destruct (mbind_snd m f s) as [-> | [a ->]]; [by apply Hm|].
  apply Hf. by apply Hm.
Qed.

Lemma keeps_ids_closeIdle : keeps_ids E (_closeIdleConnections E).
Proof.
  intros s Hs. destruct (closeIdleConnections_frame E s) as (l' & H1 & H2 & H3).
  destruct (_closeIdleConnections E s) as [r [p' w']]. cbn [fst snd] in *. subst p'.
  eapply unique_ids_mono; [exact Hs| |].
  - unfold entries. cbn. apply submseteq_skips_r. by apply sublist_submseteq.
  - destruct H3 as (_ & _ & -> & _). done.
Qed.

Lemma keeps_ids_shuffle : keeps_ids E (shuffle E).
Proof.
  intros s Hs. destruct (shuffle_spec E s) as (l' & w' & -> & H2 & H3).
  eapply unique_ids_mono; [exact Hs| |].
  - unfold entries. cbn. apply submseteq_skips_r. by apply Permutation_submseteq.
  - destruct H3 as (_ & _ & -> & _). done.
Qed.

Lemma keeps_ids_topUp n : keeps_ids E (topUp E n).
Proof.
  induction n as [|n IH]; intros [p w] Hs; [done|].
  cbn [topUp]. rewrite (mbind_done _ _ _ _ _ (getp_run _)). cbn [fst].
  destruct (getConnection E (opened w)) as [h|] eqn:Hh.
  - rewrite (mbind_done _ _ _ _ _ (addConnectionSync_ok E p w h Hh)).
    unfold modp at 1. mstep. apply IH.
    eapply (unique_ids_add (p, w) (fresh_record E p w 0 h)); [done| |done|cbn; lia].
    cbn. by rewrite Nat.add_0_r.
  - rewrite (mbind_throw _ _ _ _ _ (addConnectionSync_fail E p w Hh)). cbn [snd].
    eapply unique_ids_mono; [exact Hs|done|done].
Qed.

Lemma keeps_ids_topUpToMin : keeps_ids E (topUpToMin E).
Proof.
  intros s Hs. unfold topUpToMin. rewrite (mbind_done _ _ _ _ _ (getp_run _)).
  cbn zeta. destruct (0 <? _); [by apply keeps_ids_topUp|done].
Qed.

Lemma keeps_ids_handOut : keeps_ids E (handOut E).
Proof.
  intros [p w] Hs. destruct (_pool p) as [|c rest] eqn:Hpool.
  - destruct (decide (Z.of_nat (length (_reserved p)) < _maxpoolsize p)) as [Hlt|Hge].
    + destruct (getConnection E (opened w)) as [h|] eqn:Hh.
      * rewrite (handOut_grow E p w h Hpool Hlt Hh). cbn [snd].
        eapply (unique_ids_add (p, w) (fresh_record E p w 0 h)); [done| | |cbn; lia].
        -- cbn. by rewrite Nat.add_0_r.
        -- unfold entries. cbn. rewrite Hpool. done.
      * rewrite (handOut_grow_fails E p w Hpool Hlt Hh). cbn [snd].
        eapply unique_ids_mono; [exact Hs|done|done].
    + rewrite (handOut_exhausted E p w Hpool) by lia. done.
  - rewrite (handOut_available E p w c rest Hpool). cbn [snd].
    eapply unique_ids_mono; [exact Hs| |done].
    unfold entries. cbn. rewrite Hpool. apply Permutation_submseteq.
    cbn. by rewrite <- Permutation_middle.
Qed.

Lemma keeps_ids_reserve : keeps_ids E (reserve E).
Proof.
  intros s Hs. rewrite reserve_stages. revert s Hs.
  apply keeps_ids_bind; [apply keeps_ids_closeIdle|intros _].
  apply keeps_ids_bind; [apply keeps_ids_shuffle|intros _].
  apply keeps_ids_bind; [apply keeps_ids_topUpToMin|intros _].
  apply keeps_ids_handOut.
Qed.

Lemma closeAll_pool l : forall s,
  (closeAll E l s).2.1 = s.1 /\ drawn (closeAll E l s).2.2 = drawn s.2.
Proof.
  induction l as [|c l IH]; intros [p w]; [done|].
  cbn [closeAll].
  assert (Hone : forall m : M unit,
    (m = close_conn E (conn c) false \/ m = mret tt) ->
    (m (p, w)).2.1 = p /\ drawn (m (p, w)).2.2 = drawn w).
  { intros m [-> | ->]; [|done]. unfold close_conn.
    destruct (conn c) as [| |h]; [done|done|]. mstep.
    by destruct (close_result E (length (closes w)) h). }
  set (m := if bool_decide (conn c ≠ ConnNull) then _ else _).
  assert (Hm : m = close_conn E (conn c) false \/ m = mret tt)
    by (unfold m; case_bool_decide; auto).
  destruct (Hone m Hm) as [H1 H2].
  destruct (mbind_snd m (fun _ => closeAll E l) (p, w)) as [Heq | [a Heq]];
    rewrite Heq; [done|].
  destruct (IH (m (p, w)).2) as [H3 H4]. rewrite H3, H4. done.
Qed.

Lemma keeps_ids_purge : keeps_ids E (purge E).
Proof.
  intros [p w] Hs. unfold purge. rewrite (mbind_done _ _ _ _ _ (getp_run _)).
  cbn [fst]. destruct (closeAll_pool (_pool p ++ _reserved p) (p, w)) as [H1 H2].
  destruct (closeAll E (_pool p ++ _reserved p) (p, w)) as [[u|e] [p' w']] eqn:Hc;
    cbn [fst snd] in *; subst p'.
  - rewrite (mbind_done _ _ _ _ _ Hc). cbn.
    eapply unique_ids_mono; [exact Hs| |cbn; lia].
    unfold entries. cbn. apply submseteq_nil_l.
  - rewrite (mbind_throw _ _ _ _ _ Hc). cbn [snd].
    eapply unique_ids_mono; [exact Hs|done|cbn; lia].
Qed.

Lemma keeps_ids_release r s :
  r ∈ _reserved s.1 -> unique_ids E s -> unique_ids E (release (VObject r) s).2.
Proof.
  intros Hr [Hnd Hall]. rewrite release_object. destruct s as [p w]. cbn [fst snd] in *.
  unfold entries in *. rewrite fmap_app in Hnd.
  apply NoDup_app in Hnd as (Hp & Hdisj & Hres).
  set (res' := reject _ _).
  assert (Hsub : res' `sublist_of` _reserved p) by apply sublist_filter.
  split; unfold entries; cbn [fst snd _pool _reserved set_pool set_reserved].
  - rewrite fmap_app. rewrite fmap_cons. apply NoDup_app. split; [|split].
    + apply NoDup_cons. split; [|done]. intros Hin. apply (Hdisj _ Hin).
      apply list_elem_of_fmap. by exists r.
    + intros x Hx Hx'. apply list_elem_of_fmap in Hx' as (c' & -> & Hc').
      apply elem_of_cons in Hx as [Hx | Hx].
      * unfold res', reject in Hc'. apply list_elem_of_filter in Hc' as [Hf _].
        unfold strict_eq in Hf. apply bool_decide_eq_false in Hf. by apply Hf.
      * apply (Hdisj _ Hx). apply list_elem_of_fmap. exists c'. split; [done|].
        by eapply elem_of_sublist.
    + eapply sublist_NoDup; [exact Hres|by apply fmap_sublist].
  - intros c Hc. apply Hall. apply elem_of_app in Hc as [Hc | Hc].
    + apply elem_of_cons in Hc as [-> | Hc]; apply elem_of_app; [by right|by left].
    + apply elem_of_app. right. by eapply elem_of_sublist.
Qed.

Lemma unique_ids_step o s :
  match o with
  | Release c => exists r, c = VObject r /\ r ∈ _reserved s.1
  | _ => True
  end ->
  unique_ids E s -> unique_ids E (step E o s).
Proof.
  destruct o as [|c| |ms]; cbn [step].
  - intros _. apply keeps_ids_reserve.
  - intros (r & -> & Hr). by apply keeps_ids_release.
  - intros _. apply keeps_ids_purge.
  - intros _ Hs. eapply unique_ids_mono; [exact Hs|done|done].
Qed.

Lemma unique_ids_run ops : forall s,
  unique_ids E s -> well_behaved E ops s -> unique_ids E (run E ops s).
Proof.
  induction ops as [|o ops IH]; intros s Hs Hwb; [done|].
  destruct Hwb as [Ho Hwb]. cbn. apply IH; [|done]. by apply unique_ids_step.
Qed.

(** *** initialize *)

Lemma addConnection_fail p w :
  getConnection E (opened w) = None ->
  addConnection E (_keepalive p) (_maxidle p) (p, w) =
  (Done (CbErr (ConnectError (opened w))), (p, bump_opened w)).
Proof. intros H. unfold addConnection. mstep. by rewrite H. Qed.

(** The records of a batch carry identities drawn during the batch, no two
    the same; the pool object is not touched meanwhile. *)
Lemma times_addConnection_fresh (n : nat) : forall p w,
  exists rep w',
    times n (addConnection E (_keepalive p) (_maxidle p)) (p, w) = (Done rep, (p, w')) /\
    (drawn w <= drawn w')%nat /\
    forall conns, rep = CbOk conns ->
      NoDup (uuid <$> conns) /\
      forall c, c ∈ conns ->
        exists k, (drawn w <= k < drawn w')%nat /\ uuid c = PStr (uuid_v4 E k).
Proof.
  induction n as [|n IH]; intros p w.
  - exists (CbOk []), w. split; [done|]. split; [done|].
    intros conns [= <-]. split; [constructor|]. intros c Hc. by apply elem_of_nil in Hc.
  - cbn [times]. destruct (getConnection E (opened w)) as [h|] eqn:Hh.
    + rewrite (mbind_done _ _ _ _ _ (addConnection_ok E p w h Hh)).
      destruct (IH p (bump_drawn (bump_opened w))) as (rep & w' & Hrun & Hle & Hfresh).
      rewrite (mbind_done _ _ _ _ _ Hrun). cbn in Hle.
      eexists _, w'. split; [reflexivity|]. split; [lia|].
      destruct rep as [e|l]; [done|]. intros conns [= <-].
      destruct (Hfresh l eq_refl) as [Hnd Hall]. split.
      * cbn. apply NoDup_cons. split; [|done]. intros Hin.
        apply list_elem_of_fmap in Hin as (c' & Hu & Hc').
        destruct (Hall c' Hc') as (k & Hk & Hu'). cbn in Hk.
        rewrite Hu' in Hu. injection Hu as Hu. apply uuid_v4_inj in Hu. lia.
      * intros c Hc. apply elem_of_cons in Hc as [-> | Hc].
        -- exists (drawn w). split; [lia|]. cbn. by rewrite Nat.add_0_r.
        -- destruct (Hall c Hc) as (k & Hk & Hu). cbn in Hk. exists k. split; [lia|done].
    + rewrite (mbind_done _ _ _ _ _ (addConnection_fail p w Hh)).
      destruct (IH p (bump_opened w)) as (rep & w' & Hrun & Hle & Hfresh).
      rewrite (mbind_done _ _ _ _ _ Hrun). cbn in Hle.
      eexists _, w'. split; [reflexivity|]. split; [lia|]. by destruct rep.
Qed.

Lemma unique_ids_add_batch s conns p' w' :
  unique_ids E s -> NoDup (uuid <$> conns) ->
  (forall c, c ∈ conns ->
     exists k, (drawn s.2 <= k < drawn w')%nat /\ uuid c = PStr (uuid_v4 E k)) ->
  entries p' ⊆+ conns ++ entries s.1 -> (drawn s.2 <= drawn w')%nat ->
  unique_ids E (p', w').
Proof.
  intros [Hnd Hall] Hnew Hfresh Hsub Hle. split; cbn [fst snd].
  - eapply submseteq_NoDup; [by apply fmap_submseteq|].
    rewrite fmap_app. apply NoDup_app. split; [done|]. split; [|done].
    intros x Hx Hx'.
    apply list_elem_of_fmap in Hx as (c & -> & Hc).
    apply list_elem_of_fmap in Hx' as (c' & Hu & Hc').
    destruct (Hfresh c Hc) as (k & Hk & Hck).
    destruct (Hall c' Hc') as (k' & Hk' & Hck').
    rewrite Hck, Hck' in Hu. injection Hu as Hu. apply uuid_v4_inj in Hu. lia.
  - intros x Hx. eapply elem_of_submseteq in Hx; [|exact Hsub].
    apply elem_of_app in Hx as [Hx | Hx].
    + destruct (Hfresh x Hx) as (k & Hk & Hu). exists k. split; [lia|done].
    + destruct (Hall x Hx) as (k & Hk & Hu). exists k. split; [lia|done].
Qed.

Lemma keeps_ids_initialize : keeps_ids E (initialize E).
Proof.
  assert (Hadd : keeps_ids E (_addConnectionsOnInitialize E)).
  { intros [p w] Hs. unfold _addConnectionsOnInitialize.
    rewrite (mbind_done _ _ _ _ _ (getp_run _)). cbn [fst].
    destruct (decide (_minpoolsize p < 0)) as [Hneg|Hpos].
    { by rewrite (mbind_throw _ _ _ _ _ (asyncjs_times_negative _ _ _ Hneg)). }
    rewrite asyncjs_times_nonneg by lia.
    destruct (times_addConnection_fresh (Z.to_nat (_minpoolsize p)) p w)
      as (rep & w' & Hrun & Hle & Hfresh).
    rewrite (mbind_done _ _ _ _ _ Hrun). destruct rep as [e|conns]; cbn [snd].
    - eapply unique_ids_mono; [exact Hs|done|done].
    - destruct (Hfresh conns eq_refl) as [Hnd Hall]. cbn.
      eapply (unique_ids_add_batch (p, w) conns); [done|done|done| |done].
      unfold entries. cbn. apply Permutation_submseteq.
      by rewrite (Permutation_app_comm (_pool p) conns), <- app_assoc. }
  intros [p w] Hs. unfold initialize.
  rewrite (mbind_done _ _ _ _ _ (getp_run _)). cbn [fst].
  case_bool_decide; [|by apply Hadd].
  destruct (driver_ok E); [by apply Hadd|done].
Qed.

Lemma unique_ids_new_Pool config w : unique_ids E (new_Pool config, w).
Proof.
  split; cbn; [constructor|]. intros c Hc. by apply elem_of_nil in Hc.
Qed.

(** C1, as amended: when [uuid.v4] never repeats an identity and every
    [release] of the sequence is given a record that is reserved at that
    moment, then after any sequence of [reserve], [release], [purge] and
    pauses on an initialized pool no identity is twice in the available
    array, none is twice in the reserved array, and none is in both. *)
Theorem ids_unique_when_releasing_reserved (config : Config) (w : World) (ops : list op) :
  well_behaved E ops (initialize E (new_Pool config, w)).2 ->
  NoDup (uuid <$> _pool (run E ops (initialize E (new_Pool config, w)).2).1) /\
  NoDup (uuid <$> _reserved (run E ops (initialize E (new_Pool config, w)).2).1) /\
  forall c c',
    c ∈ _pool (run E ops (initialize E (new_Pool config, w)).2).1 ->
    c' ∈ _reserved (run E ops (initialize E (new_Pool config, w)).2).1 ->
    uuid c ≠ uuid c'.
Proof.
  intros Hwb.
  assert (Hinv : unique_ids E (run E ops (initialize E (new_Pool config, w)).2)).
  { apply unique_ids_run; [|done]. apply keeps_ids_initialize, unique_ids_new_Pool. }
  destruct Hinv as [Hnd _]. unfold entries in Hnd. rewrite fmap_app in Hnd.
  apply NoDup_app in Hnd as (Hp & Hdisj & Hr). split; [done|]. split; [done|].
  intros c c' Hc Hc' Heq. apply (Hdisj (uuid c)).
  - apply list_elem_of_fmap. by exists c.
  - rewrite Heq. apply list_elem_of_fmap. by exists c'.
Qed.

End Identities.

Lemma id_of_inj i : forall j, id_of i = id_of j -> i = j.
Proof.
  induction i as [|i IH]; intros [|j] H; cbn in H; try done.
  injection H as H. f_equal. by apply IH.
Qed.

Lemma ids_unique_when_releasing_reserved_witness :
  NoDup (uuid <$> _pool (run env_ok
           [Reserve; Release (VObject (record 1 None)); Tick 5; Reserve]
           (initialize env_ok (new_Pool (config_2_3 None), world0)).2).1) /\
  NoDup (uuid <$> _reserved (run env_ok
           [Reserve; Release (VObject (record 1 None)); Tick 5; Reserve]
           (initialize env_ok (new_Pool (config_2_3 None), world0)).2).1) /\
  forall c c',
    c ∈ _pool (run env_ok
           [Reserve; Release (VObject (record 1 None)); Tick 5; Reserve]
           (initialize env_ok (new_Pool (config_2_3 None), world0)).2).1 ->
    c' ∈ _reserved (run env_ok
           [Reserve; Release (VObject (record 1 None)); Tick 5; Reserve]
           (initialize env_ok (new_Pool (config_2_3 None), world0)).2).1 ->
    uuid c ≠ uuid c'.
Proof.
  apply (ids_unique_when_releasing_reserved env_ok id_of_inj).
  cbn. split; [done|]. split; [|done].
  exists (record 1 None). split; [reflexivity|]. by left.
Defined.

(** C1, as stated, fails: releasing the same record twice leaves its
    identity twice in the available array, and two more calls of [reserve]
    leave it in both arrays at once. *)
Lemma double_release_duplicates_identity :
  uuid <$> _pool (run env_ok
     [Reserve; Release (VObject (record 1 None)); Release (VObject (record 1 None))]
     state_initialized).1 = [PStr "i#"; PStr "i#"; PStr "#"] /\
  ~ NoDup (uuid <$> _pool (run env_ok
     [Reserve; Release (VObject (record 1 None)); Release (VObject (record 1 None))]
     state_initialized).1) /\
  PStr "i#" ∈ uuid <$> _pool (run env_ok
     [Reserve; Release (VObject (record 1 None)); Release (VObject (record 1 None));
      Reserve; Reserve] state_initialized).1 /\
  PStr "i#" ∈ uuid <$> _reserved (run env_ok
     [Reserve; Release (VObject (record 1 None)); Release (VObject (record 1 None));
      Reserve; Reserve] state_initialized).1.
Proof.
  split; [reflexivity|]. split; [|split].
  - intros H. change (NoDup [PStr "i#"; PStr "i#"; PStr "#"]) in H.
    apply NoDup_cons in H as [Hn _]. apply Hn. by left.
  - change (PStr "i#" ∈ [PStr "i#"]). by left.
  - change (PStr "i#" ∈ [PStr "i#"; PStr "#"]). by left.
Qed.

(** ** lastIdle *)

Lemma mbind_inv_done {A B} (m : M A) (f : A -> M B) s b s' :
  (m ≫= f) s = (Done b, s') ->
  exists a s0, m s = (Done a, s0) /\ f a s0 = (Done b, s').
Proof.
  unfold mbind, M_bind. destruct (m s) as [[a|e] s0]; [|done].
  intros H. by exists a, s0.
Qed.

Section LastIdle.

Variable E : Env.

Lemma topUp_stamped (n : nat) : forall p w,
  exists news,
    (topUp E n (p, w)).2.1 = set_pool (news ++ _pool p) p /\
    now (topUp E n (p, w)).2.2 = now w /\
    forall c, c ∈ news -> stamped p w c.
Proof.
  induction n as [|n IH]; intros p w.
  - exists []. cbn. rewrite set_pool_id. split; [done|]. split; [done|].
    intros c Hc. by apply elem_of_nil in Hc.
  - cbn [topUp]. rewrite (mbind_done _ _ _ _ _ (getp_run _)). cbn [fst].
    destruct (getConnection E (opened w)) as [h|] eqn:Hh.
    + rewrite (mbind_done _ _ _ _ _ (addConnectionSync_ok E p w h Hh)).
      unfold modp at 1. mstep.
      destruct (IH (set_pool (fresh_record E p w 0 h :: _pool p) p)
                   (bump_drawn (bump_opened w))) as (news & H1 & H2 & H3).
      exists (news ++ [fresh_record E p w 0 h]). rewrite H1, H2.
      split; [|split; [done|]].
      * cbn. by rewrite <- app_assoc.
      * intros c Hc. apply elem_of_app in Hc as [Hc | Hc]; [by apply H3|].
        apply list_elem_of_singleton in Hc as ->. reflexivity.
    + rewrite (mbind_throw _ _ _ _ _ (addConnectionSync_fail E p w Hh)).
      exists []. cbn. rewrite set_pool_id. split; [done|]. split; [done|].
      intros c Hc. by apply elem_of_nil in Hc.
Qed.

Lemma topUpToMin_stamped p w :
  exists news,
    (topUpToMin E (p, w)).2.1 = set_pool (news ++ _pool p) p /\
    now (topUpToMin E (p, w)).2.2 = now w /\
    forall c, c ∈ news -> stamped p w c.
Proof.
  unfold topUpToMin. rewrite (mbind_done _ _ _ _ _ (getp_run _)). cbn zeta.
  destruct (0 <? _); [apply topUp_stamped|].
  exists []. cbn. rewrite set_pool_id. split; [done|]. split; [done|].
  intros c Hc. by apply elem_of_nil in Hc.
Qed.

Lemma handOut_inv p w c s1 :
  handOut E (p, w) = (Done (CbOk c), s1) ->
  (exists rest, _pool p = c :: rest) \/ (_pool p = [] /\ stamped p w c).
Proof.
  intros H. destruct (_pool p) as [|c' rest] eqn:Hpool.
  - right. split; [done|].
    destruct (decide (Z.of_nat (length (_reserved p)) < _maxpoolsize p)) as [Hlt|Hge].
    + destruct (getConnection E (opened w)) as [h|] eqn:Hh.
      * rewrite (handOut_grow E p w h Hpool Hlt Hh) in H. injection H as <- _.
        reflexivity.
      * by rewrite (handOut_grow_fails E p w Hpool Hlt Hh) in H.
    + rewrite (handOut_exhausted E p w Hpool) in H by lia. done.
  - left. rewrite (handOut_available E p w c' rest Hpool) in H. injection H as <- _.
    by exists rest.
Qed.

(** What [reserve] hands out was available before the call, or was created
    during the call. *)
Lemma reserve_hands_out s c s1 :
  reserve E s = (Done (CbOk c), s1) ->
  c ∈ _pool s.1 \/ stamped s.1 s.2 c.
Proof.
  intros H. rewrite reserve_stages in H.
  apply mbind_inv_done in H as (u & sA & HA & H).
  apply mbind_inv_done in H as (u' & sB & HB & H).
  apply mbind_inv_done in H as (u'' & sC & HC & HD).
  destruct (closeIdleConnections_frame E s) as (l0 & HA1 & HA2 & HA3).
  rewrite HA in HA1, HA3. cbn [snd] in HA1, HA3.
  destruct (shuffle_spec E sA) as (l1 & wB & HB1 & HB2 & HB3).
  rewrite HB in HB1. injection HB1 as _ ->.
  destruct (topUpToMin_stamped (set_pool l1 sA.1) wB) as (news & HC1 & HC2 & HC3).
  rewrite HC in HC1, HC2. cbn [snd] in HC1, HC2.
  destruct sC as [pC wC]. cbn [fst snd] in *. subst pC.
  destruct s as [p w]. destruct sA as [pA wA]. cbn [fst snd] in *. subst pA.
  destruct HA3 as (HnowA & _). destruct HB3 as (HnowB & _).
  assert (Hst : forall x, stamped (set_pool (news ++ l1) (set_pool l1 (set_pool l0 p))) wC x
                          -> stamped p w x).
  { intros x Hx. unfold stamped in *. cbn in Hx. rewrite Hx. by rewrite HC2, HnowB, HnowA. }
  assert (Hst' : forall x, stamped (set_pool l1 (set_pool l0 p)) wB x -> stamped p w x).
  { intros x Hx. unfold stamped in *. cbn in Hx. rewrite Hx. by rewrite HnowB, HnowA. }
  apply handOut_inv in HD as [[rest Hpool] | [_ Hc]]; [|right; by apply Hst].
  cbn in Hpool.
  assert (Hin : c ∈ news ++ l1) by (rewrite Hpool; by left).
  apply elem_of_app in Hin as [Hin | Hin]; [right; by apply Hst', HC3|].
  left. rewrite HB2 in Hin. by eapply elem_of_sublist.
Qed.

(** C8, as amended: the record [reserve] hands out either was available
    before the call or has just been created, and then its [lastIdle] is the
    time of the creation (absent when [_maxidle] is not set); [release], at
    any later time, puts this very record at the front of the available
    array, so its [lastIdle] is what it was and not the time of the
    release. *)
Theorem lastIdle_set_at_creation_only (s s1 : State) (c : connobj) (ms : Z) :
  reserve E s = (Done (CbOk c), s1) ->
  (c ∈ _pool s.1 \/
   lastIdle c = if truthy (_maxidle s.1) then Some (now s.2) else None) /\
  exists s2,
    release (VObject c) (step E (Tick ms) s1) = (Done (CbOk tt), s2) /\
    now s2.2 = now s1.2 + ms /\
    _pool s2.1 = c :: _pool s1.1 /\
    lastIdle <$> head (_pool s2.1) = Some (lastIdle c).
Proof.
  intros H. split; [by eapply reserve_hands_out|].
  eexists. split; [apply release_object|]. done.
Qed.

End LastIdle.

Lemma lastIdle_set_at_creation_only_witness :
  (record 1 (Some 0) ∈ _pool state_initialized_idle.1 \/
   lastIdle (record 1 (Some 0)) =
     if truthy (_maxidle state_initialized_idle.1)
     then Some (now state_initialized_idle.2) else None) /\
  exists s2,
    release (VObject (record 1 (Some 0)))
      (step env_ok (Tick 500) (reserve env_ok state_initialized_idle).2)
    = (Done (CbOk tt), s2) /\
    now s2.2 = now (reserve env_ok state_initialized_idle).2.2 + 500 /\
    _pool s2.1 = record 1 (Some 0) :: _pool (reserve env_ok state_initialized_idle).2.1 /\
    lastIdle <$> head (_pool s2.1) = Some (lastIdle (record 1 (Some 0))).
Proof.
  apply (lastIdle_set_at_creation_only env_ok state_initialized_idle
           (reserve env_ok state_initialized_idle).2 (record 1 (Some 0)) 500).
  reflexivity.
Defined.

(** C8, as stated, fails: a record created at time 0, reserved and released
    at time 500 is back in front of the available array with [lastIdle] 0. *)
Lemma release_does_not_refresh_lastIdle :
  (reserve env_ok state_initialized_idle).1 = Done (CbOk (record 1 (Some 0))) /\
  now (run env_ok [Reserve; Tick 500; Release (VObject (record 1 (Some 0)))]
         state_initialized_idle).2 = 500 /\
  _pool (run env_ok [Reserve; Tick 500; Release (VObject (record 1 (Some 0)))]
           state_initialized_idle).1
    = [record 1 (Some 0); record 0 (Some 0)] /\
  lastIdle <$> head (_pool (run env_ok
      [Reserve; Tick 500; Release (VObject (record 1 (Some 0)))]
      state_initialized_idle).1) ≠ Some (Some 500).
Proof.
  split; [reflexivity|]. split; [reflexivity|]. split; [reflexivity|]. discriminate.
Qed.

(** * Further properties *)

(** ** Frames of the stages of reserve *)

Lemma same_config_refl p : same_config p p.
Proof. by repeat split. Qed.

Lemma same_config_trans p1 p2 p3 :
  same_config p1 p2 -> same_config p2 p3 -> same_config p1 p3.
Proof.
  unfold same_config. intros (?&?&?&?&?) (?&?&?&?&?). repeat split; congruence.
Qed.

Lemma same_config_arrays l r p : same_config p (set_reserved r (set_pool l p)).
Proof. by repeat split. Qed.

Lemma same_config_set_pool l p : same_config p (set_pool l p).
Proof. by repeat split. Qed.

Lemma capacity_same p p' : same_config p p' -> capacity p' = capacity p.
Proof. unfold capacity. intros (_ & -> & -> & _). done. Qed.

Lemma within_capacity_refl s : within_capacity s s.
Proof. split; [apply same_config_refl|lia]. Qed.

Lemma within_capacity_trans s1 s2 s3 :
  within_capacity s1 s2 -> within_capacity s2 s3 -> within_capacity s1 s3.
Proof.
  intros [Hc1 Ht1] [Hc2 Ht2]. split; [by eapply same_config_trans|].
  rewrite (capacity_same _ _ Hc1) in Ht2. lia.
Qed.

Lemma reserved_kept_refl s : reserved_kept s s.
Proof. split; [apply same_config_refl|done]. Qed.

Lemma reserved_kept_trans s1 s2 s3 :
  reserved_kept s1 s2 -> reserved_kept s2 s3 -> reserved_kept s1 s3.
Proof.
  intros (Hc1 & Hr1 & Hl1) (Hc2 & Hr2 & Hl2).
  split; [by eapply same_config_trans|]. split; congruence.
Qed.

Lemma respects_bind {A B} (R : State -> State -> Prop) (m : M A) (f : A -> M B) :
  (forall s1 s2 s3, R s1 s2 -> R s2 s3 -> R s1 s3) ->
  respects R m -> (forall a, respects R (f a)) -> respects R (m ≫= f).
Proof.
  intros Htrans Hm Hf s. destruct (mbind_snd m f s) as [-> | [a ->]]; [apply Hm|].
  eapply Htrans; [apply Hm|apply Hf].
Qed.

Section Frames.

Variable E : Env.

(** The loop adds at most [n] records in front of [_pool], exactly [n] when
    it returns, and touches nothing else of the pool object. *)
Lemma topUp_frame (n : nat) : forall p w,
  exists news,
    (topUp E n (p, w)).2.1 = set_pool (news ++ _pool p) p /\
    (length news <= n)%nat /\
    ((exists u, (topUp E n (p, w)).1 = Done u) -> length news = n) /\
    closes (topUp E n (p, w)).2.2 = closes w.
Proof.
  induction n as [|n IH]; intros p w.
  - exists []. cbn. by rewrite set_pool_id.
  - cbn [topUp]. rewrite (mbind_done _ _ _ _ _ (getp_run _)). cbn [fst].
    destruct (getConnection E (opened w)) as [h|] eqn:Hh.
    + rewrite (mbind_done _ _ _ _ _ (addConnectionSync_ok E p w h Hh)).
      unfold modp at 1. mstep.
      destruct (IH (set_pool (fresh_record E p w 0 h :: _pool p) p)
                   (bump_drawn (bump_opened w))) as (news & H1 & H2 & H3 & H4).
      exists (news ++ [fresh_record E p w 0 h]). rewrite H1, H4.
      split; [cbn; by rewrite <- app_assoc|].
      rewrite length_app. cbn [length]. split; [lia|]. split; [|done].
      intros Hd. rewrite (H3 Hd). lia.
    + rewrite (mbind_throw _ _ _ _ _ (addConnectionSync_fail E p w Hh)).
      exists []. cbn. rewrite set_pool_id. split; [done|]. split; [lia|].
      split; [|done]. by intros [u Hu].
Qed.

Lemma topUpToMin_frame p w :
  exists news,
    (topUpToMin E (p, w)).2.1 = set_pool (news ++ _pool p) p /\
    Z.of_nat (length news) + total p <= Z.max (total p) (_minpoolsize p) /\
    ((exists u, (topUpToMin E (p, w)).1 = Done u) ->
     _minpoolsize p <= Z.of_nat (length news) + total p) /\
    closes (topUpToMin E (p, w)).2.2 = closes w.
Proof.
  unfold topUpToMin. rewrite (mbind_done _ _ _ _ _ (getp_run _)). cbn zeta. cbn [fst].
  rewrite length_app. fold (total p).
  destruct (0 <? _minpoolsize p - total p) eqn:Hdue.
  - apply Z.ltb_lt in Hdue.
    destruct (topUp_frame (Z.to_nat (_minpoolsize p - total p)) p w)
      as (news & H1 & H2 & H3 & H4).
    exists news. split; [done|]. split; [lia|]. split; [|done].
    intros Hd. rewrite (H3 Hd). lia.
  - apply Z.ltb_ge in Hdue. exists []. cbn. rewrite set_pool_id.
    split; [done|]. split; [lia|]. split; [lia|done].
Qed.

(** The three ways the hand-out stage ends; it always calls back. *)
Lemma handOut_cases p w :
  (exists c rest,
     _pool p = c :: rest /\
     handOut E (p, w) =
       (Done (CbOk c), (set_reserved (c :: _reserved p) (set_pool rest p), w))) \/
  (exists c w',
     _pool p = [] /\ Z.of_nat (length (_reserved p)) < _maxpoolsize p /\
     handOut E (p, w) = (Done (CbOk c), (set_reserved (c :: _reserved p) p, w')) /\
     closes w' = closes w) \/
  (exists e w',
     _pool p = [] /\ handOut E (p, w) = (Done (CbErr e), (p, w')) /\
     closes w' = closes w).
Proof.
  destruct (_pool p) as [|c rest] eqn:Hpool.
  - destruct (decide (Z.of_nat (length (_reserved p)) < _maxpoolsize p)) as [Hlt|Hge].
    + destruct (getConnection E (opened w)) as [h|] eqn:Hh.
      * right. left. eexists _, _. split; [done|]. split; [done|].
        split; [by apply handOut_grow|done].
      * right. right. eexists _, _. split; [done|].
        split; [by apply handOut_grow_fails|done].
    + right. right. eexists _, _. split; [done|].
      split; [apply handOut_exhausted; [done|lia]|done].
  - left. exists c, rest. split; [done|]. by apply handOut_available.
Qed.

Lemma respects_within_closeIdle : respects within_capacity (_closeIdleConnections E).
Proof.
  intros s. destruct (closeIdleConnections_frame E s) as (l' & H1 & H2 & _).
  split; rewrite H1; [apply same_config_set_pool|].
  apply sublist_length in H2. unfold total. cbn. lia.
Qed.

Lemma respects_within_shuffle : respects within_capacity (shuffle E).
Proof.
  intros s. destruct (shuffle_spec E s) as (l' & w' & -> & H2 & _).
  split; [apply same_config_set_pool|].
  apply Permutation_length in H2. unfold total. cbn. lia.
Qed.

Lemma respects_within_topUpToMin : respects within_capacity (topUpToMin E).
Proof.
  intros [p w]. destruct (topUpToMin_frame p w) as (news & H1 & H2 & _).
  split; rewrite H1; [apply same_config_set_pool|].
  unfold total, capacity in *. cbn. rewrite length_app. lia.
Qed.

Lemma respects_within_handOut : respects within_capacity (handOut E).
Proof.
  intros [p w].
  destruct (handOut_cases p w) as [(c & rest & Hp & ->) | [(c & w' & Hp & Hlt & -> & _)
    | (e & w' & Hp & -> & _)]]; cbn [fst snd].
  - split; [apply same_config_arrays|]. unfold total. cbn. rewrite Hp. cbn. lia.
  - split; [by repeat split|]. unfold total, capacity. cbn. rewrite Hp. cbn. lia.
  - split; [apply same_config_refl|cbn; lia].
Qed.

Lemma respects_within_reserve : respects within_capacity (reserve E).
Proof.
  intros s. rewrite reserve_stages. revert s.
  apply respects_bind; [apply within_capacity_trans|apply respects_within_closeIdle|].
  intros _.
  apply respects_bind; [apply within_capacity_trans|apply respects_within_shuffle|].
  intros _.
  apply respects_bind; [apply within_capacity_trans|apply respects_within_topUpToMin|].
  intros _. apply respects_within_handOut.
Qed.

Lemma respects_within_purge : respects within_capacity (purge E).
Proof.
  intros [p w]. unfold purge. rewrite (mbind_done _ _ _ _ _ (getp_run _)). cbn [fst].
  destruct (closeAll_pool E (_pool p ++ _reserved p) (p, w)) as [H1 _].
  destruct (closeAll E (_pool p ++ _reserved p) (p, w)) as [[u|e] [p' w']] eqn:Hc;
    cbn [fst snd] in *; subst p'.
  - rewrite (mbind_done _ _ _ _ _ Hc). mstep. split; [by repeat split|].
    unfold total. cbn. lia.
  - rewrite (mbind_throw _ _ _ _ _ Hc). split; [apply same_config_refl|cbn; lia].
Qed.

(** [shuffle] and the top-up leave the reserved array alone and close
    nothing. *)
Lemma respects_kept_shuffle : respects reserved_kept (shuffle E).
Proof.
  intros s. destruct (shuffle_spec E s) as (l' & w' & -> & _ & H3).
  split; [apply same_config_set_pool|]. split; [done|]. by destruct H3 as (_&_&_&?&_).
Qed.

Lemma respects_kept_topUpToMin : respects reserved_kept (topUpToMin E).
Proof.
  intros [p w]. destruct (topUpToMin_frame p w) as (news & H1 & _ & _ & H4).
  split; rewrite H1; [apply same_config_set_pool|]. done.
Qed.

(** [reserve] up to the hand-out stage: the reserved array is as before the
    call, and either an exception left [reserve] or the minimum is met. *)
Lemma reserve_split s :
  exists sC,
    same_config s.1 sC.1 /\
    _reserved sC.1 = _reserved s.1 /\
    (truthy (_maxidle s.1) = false -> closes sC.2 = closes s.2) /\
    ((exists e, reserve E s = (Throw e, sC)) \/
     (reserve E s = handOut E sC /\ _minpoolsize s.1 <= total sC.1)).
Proof.
  rewrite reserve_stages.
  destruct (closeIdleConnections_frame E s) as (l0 & HA1 & _ & _).
  pose proof (closeIdleConnections_off E s) as Hoff.
  destruct (_closeIdleConnections E s) as [[u|e] sA] eqn:HA; cbn [snd] in HA1.
  - assert (HclA : truthy (_maxidle s.1) = false -> closes sA.2 = closes s.2).
    { intros Hf. specialize (Hoff Hf). by injection Hoff as _ ->. }
    rewrite (mbind_done _ _ _ _ _ HA).
    pose proof (respects_kept_shuffle sA) as HB.
    destruct (shuffle_spec E sA) as (l1 & wB & HBrun & _ & _).
    rewrite HBrun in HB. rewrite (mbind_done _ _ _ _ _ HBrun).
    set (sB := (set_pool l1 sA.1, wB)) in *.
    pose proof (respects_kept_topUpToMin sB) as HC.
    destruct (topUpToMin_frame sB.1 sB.2) as (news & HC1 & _ & HC3 & _).
    replace (sB.1, sB.2) with sB in * by done.
    assert (HsAcfg : same_config s.1 sA.1) by (rewrite HA1; apply same_config_set_pool).
    assert (HsAres : _reserved sA.1 = _reserved s.1) by (by rewrite HA1).
    destruct (reserved_kept_trans _ _ _ HB HC) as (Hcfg & Hres & Hcl).
    destruct (topUpToMin E sB) as [[u''|e] sC] eqn:HCrun; cbn [fst snd] in *.
    + exists sC. split; [by eapply same_config_trans|]. split; [congruence|].
      split; [intros Hf; rewrite Hcl; by apply HclA|]. right.
      split; [by rewrite (mbind_done _ _ _ _ _ HCrun)|].
      assert (Hmin : _minpoolsize sB.1 <= Z.of_nat (length news) + total sB.1)
        by (apply HC3; by exists u'').
      destruct HB as (HcfgB & _). destruct HcfgB as (_ & HminB & _).
      destruct HsAcfg as (_ & HminA & _). cbn [fst] in *.
      rewrite HC1. unfold total in *. cbn in *. rewrite length_app. lia.
    + exists sC. split; [by eapply same_config_trans|]. split; [congruence|].
      split; [intros Hf; rewrite Hcl; by apply HclA|]. left. exists e.
      by rewrite (mbind_throw _ _ _ _ _ HCrun).
  - exists sA. split; [rewrite HA1; apply same_config_set_pool|].
    split; [by rewrite HA1|]. split.
    + intros Hf. specialize (Hoff Hf). done.
    + left. exists e. by rewrite (mbind_throw _ _ _ _ _ HA).
Qed.

End Frames.

(** ** shuffle *)

Section ShuffleMore.

Variable E : Env.

Lemma shuffleLoop_rolls (index : nat) : forall s,
  rolls (shuffleLoop E index s).2.2 = (rolls s.2 + index)%nat.
Proof.
  induction index as [|i IH]; intros [p w]; [cbn; lia|].
  cbn [shuffleLoop]. unfold random_below, swap_pool. mstep.
  rewrite IH. cbn. lia.
Qed.

(** X1: [shuffle] always returns; it leaves a permutation of the available
    array, draws one random number per element but the first, and changes
    nothing else. *)
Theorem shuffle_permutes_available (s : State) :
  exists l' w',
    shuffle E s = (Done tt, (set_pool l' s.1, w')) /\
    l' ≡ₚ _pool s.1 /\
    rolls w' = (rolls s.2 + (length (_pool s.1) - 1))%nat /\
    same_but_rolls s.2 w'.
Proof.
  destruct (shuffle_spec E s) as (l' & w' & Hrun & Hperm & Hw).
  exists l', w'. split; [done|]. split; [done|]. split; [|done].
  unfold shuffle in Hrun. rewrite (mbind_done _ _ _ _ _ (getp_run _)) in Hrun.
  pose proof (shuffleLoop_rolls (length (_pool s.1) - 1) s) as Hr.
  cbn [fst] in Hrun. by rewrite Hrun in Hr.
Qed.

End ShuffleMore.

(** ** initialize *)

Section InitializeMore.

Variable E : Env.

(** A batch always calls back, never touches the pool object and closes
    nothing. *)
Lemma times_addConnection_frame (n : nat) : forall p w,
  exists rep w',
    times n (addConnection E (_keepalive p) (_maxidle p)) (p, w) = (Done rep, (p, w')) /\
    closes w' = closes w /\
    forall conns, rep = CbOk conns -> length conns = n.
Proof.
  induction n as [|n IH]; intros p w.
  - exists (CbOk []), w. split; [done|]. split; [done|]. by intros conns [= <-].
  - cbn [times]. destruct (getConnection E (opened w)) as [h|] eqn:Hh.
    + rewrite (mbind_done _ _ _ _ _ (addConnection_ok E p w h Hh)).
      destruct (IH p (bump_drawn (bump_opened w))) as (rep & w' & Hrun & Hcl & Hlen).
      rewrite (mbind_done _ _ _ _ _ Hrun).
      eexists _, w'. split; [reflexivity|]. split; [done|].
      destruct rep as [e|l]; [done|]. intros conns [= <-]. cbn. by rewrite (Hlen l).
    + rewrite (mbind_done _ _ _ _ _ (addConnection_fail E p w Hh)).
      destruct (IH p (bump_opened w)) as (rep & w' & Hrun & Hcl & Hlen).
      rewrite (mbind_done _ _ _ _ _ Hrun).
      eexists _, w'. split; [reflexivity|]. split; [done|]. by destruct rep.
Qed.




End InitializeMore.



(** ** What reserve, release and purge keep *)

Section Kept.

Variable E : Env.

Lemma release_same_config c s : same_config s.1 (release c s).2.1.
Proof.
  destruct c as [[]| |o]; try apply same_config_refl.
  rewrite release_object. apply same_config_arrays.
Qed.

Lemma step_same_config o s : same_config s.1 (step E o s).1.
Proof.
  destruct o as [|c| |ms]; cbn [step].
  - apply respects_within_reserve.
  - apply release_same_config.
  - apply respects_within_purge.
  - apply same_config_refl.
Qed.

Lemma run_same_config ops : forall s, same_config s.1 (run E ops s).1.
Proof.
  induction ops as [|o ops IH]; intros s; [apply same_config_refl|].
  cbn. eapply same_config_trans; [apply step_same_config|apply IH].
Qed.

(** What [initialize] leaves: the pool object with a whole batch appended to
    the available array, or untouched. *)
Lemma initialize_frame p w :
  exists conns w',
    (initialize E (p, w)).2 = (set_pool (_pool p ++ conns) p, w') /\
    (conns = [] \/ length conns = Z.to_nat (_minpoolsize p)) /\
    closes w' = closes w.
Proof.
  assert (Hadd : exists conns w',
    (_addConnectionsOnInitialize E (p, w)).2 = (set_pool (_pool p ++ conns) p, w') /\
    (conns = [] \/ length conns = Z.to_nat (_minpoolsize p)) /\
    closes w' = closes w).
  { unfold _addConnectionsOnInitialize.
    rewrite (mbind_done _ _ _ _ _ (getp_run _)). cbn [fst].
    destruct (decide (_minpoolsize p < 0)) as [Hneg|Hpos].
    { rewrite (mbind_throw _ _ _ _ _ (asyncjs_times_negative _ _ _ Hneg)).
      exists [], w. rewrite app_nil_r, set_pool_id. auto. }
    rewrite asyncjs_times_nonneg by lia.
    destruct (times_addConnection_frame E (Z.to_nat (_minpoolsize p)) p w)
      as (rep & w' & Hrun & Hcl & Hlen).
    rewrite (mbind_done _ _ _ _ _ Hrun). destruct rep as [e|conns]; cbn [snd].
    - exists [], w'. rewrite app_nil_r, set_pool_id. auto.
    - exists conns, w'. split; [done|]. split; [right; by apply Hlen|done]. }
  unfold initialize. rewrite (mbind_done _ _ _ _ _ (getp_run _)). cbn [fst].
  assert (Hid : exists conns w',
    (p, w) = (set_pool (_pool p ++ conns) p, w') /\
    (conns = [] \/ length conns = Z.to_nat (_minpoolsize p)) /\ closes w' = closes w).
  { exists [], w. rewrite app_nil_r, set_pool_id. auto. }
  case_bool_decide; [|exact Hadd]. destruct (driver_ok E); [exact Hadd|exact Hid].
Qed.

(** X4: the configuration of a pool is the one the constructor computed,
    after [initialize] and after any sequence of [reserve], [release] (of
    any argument), [purge] and pauses. *)
Theorem configuration_never_changes (config : Config) (w : World) (ops : list op) :
  same_config (new_Pool config) (run E ops (initialize E (new_Pool config, w)).2).1.
Proof.
  destruct (initialize_frame (new_Pool config) w) as (conns & w' & Hinit & _).
  eapply same_config_trans; [|apply run_same_config].
  rewrite Hinit. apply same_config_set_pool.
Qed.

(** X5: [reserve] never removes anything from the reserved array: when it
    hands out a record, that record is put in front of the reserved array,
    which is otherwise as before; when it calls back with an error or
    throws, the reserved array is as before. *)
Theorem reserve_only_prepends_to_reserved (s : State) :
  (exists c s1,
     reserve E s = (Done (CbOk c), s1) /\ _reserved s1.1 = c :: _reserved s.1) \/
  (exists r s1,
     reserve E s = (r, s1) /\ (forall c, r ≠ Done (CbOk c)) /\
     _reserved s1.1 = _reserved s.1).
Proof.
  destruct (reserve_split E s) as (sC & _ & Hres & _ & [[e Hrun] | [Hrun _]]).
  - right. exists (Throw e), sC. by rewrite Hrun.
  - rewrite Hrun. destruct sC as [p w]. cbn [fst snd] in *.
    destruct (handOut_cases E p w) as [(c & rest & Hp & ->) | [(c & w' & Hp & Hlt & -> & _)
      | (e & w' & Hp & -> & _)]].
    + left. eexists _, _. split; [reflexivity|]. cbn. by rewrite Hres.
    + left. eexists _, _. split; [reflexivity|]. cbn. by rewrite Hres.
    + right. eexists _, _. split; [reflexivity|]. done.
Qed.

(** X6: whenever [reserve] calls back, with a record or with an error, the
    two arrays together hold at least [_minpoolsize] elements. *)
Theorem reserve_restores_minimum (s s1 : State) (rep : reply connobj) :
  reserve E s = (Done rep, s1) ->
  _minpoolsize s.1 <= total s1.1.
Proof.
  intros H.
  destruct (reserve_split E s) as (sC & _ & _ & _ & [[e Hrun] | [Hrun Hmin]]).
  { by rewrite Hrun in H. }
  rewrite Hrun in H. destruct sC as [p w]. cbn [fst snd] in *.
  destruct (handOut_cases E p w) as [(c & rest & Hp & Hh) | [(c & w' & Hp & Hlt & Hh & _)
    | (e & w' & Hp & Hh & _)]]; rewrite Hh in H; injection H as _ <-;
    unfold total in *; cbn in *; rewrite Hp in *; cbn in *; lia.
Qed.

Lemma reserve_closes_frame (s : State) :
  truthy (_maxidle s.1) = false ->
  closes (reserve E s).2.2 = closes s.2.
Proof.
  intros Hoff.
  destruct (reserve_split E s) as (sC & _ & _ & Hcl & [[e Hrun] | [Hrun _]]);
    rewrite Hrun; [by apply Hcl|].
  rewrite <- (Hcl Hoff). destruct sC as [p w]. cbn [fst snd].
  destruct (handOut_cases E p w) as [(c & rest & Hp & ->) | [(c & w' & Hp & Hlt & -> & Hw)
    | (e & w' & Hp & -> & Hw)]]; done.
Qed.

(** X7: with [_maxidle] not set, [reserve] closes no connection, however it
    ends. *)
Theorem reserve_without_maxidle_closes_nothing (s : State) :
  truthy (_maxidle s.1) = false ->
  closes (reserve E s).2.2 = closes s.2.
Proof. apply reserve_closes_frame. Qed.

(** X8: when, after the idle eviction of the call, a record is available
    and the minimum is met, [reserve] hands out one of the records the
    eviction left; during the whole call the driver manager is not called
    and no identity is drawn, and nothing is closed but what the eviction
    closed. *)
Theorem reserve_reuses_available (s s0 : State) :
  _closeIdleConnections E s = (Done tt, s0) ->
  _pool s0.1 ≠ [] ->
  _minpoolsize s0.1 <= total s0.1 ->
  exists c rest w',
    reserve E s =
      (Done (CbOk c), (set_reserved (c :: _reserved s.1) (set_pool rest s.1), w')) /\
    c :: rest ≡ₚ _pool s0.1 /\
    (forall x, x ∈ c :: rest -> x ∈ _pool s.1) /\
    opened w' = opened s.2 /\ drawn w' = drawn s.2 /\
    closes w' = closes s0.2 /\
    (truthy (_maxidle s.1) = false -> closes w' = closes s.2).
Proof.
  intros H0 Hne Hmin.
  destruct (reserve_from_available E s s0 H0 Hne Hmin)
    as (c & rest & w' & Hrun & Hperm & Hop & Hdr & Hcl).
  destruct (closeIdleConnections_frame E s) as (l0 & Hl0 & Hsub & Hsc).
  rewrite H0 in Hl0, Hsc. cbn [snd] in Hl0, Hsc.
  destruct Hsc as (_ & Hop0 & Hdr0 & _).
  exists c, rest, w'. rewrite Hl0 in Hrun, Hperm. cbn [_reserved _pool set_pool] in *.
  rewrite set_pool_set_pool in Hrun.
  split; [exact Hrun|]. split; [by rewrite Hl0|]. split.
  { intros x Hx. rewrite Hperm in Hx. by eapply elem_of_sublist. }
  split; [congruence|]. split; [congruence|]. split; [done|].
  intros Hoff. rewrite Hcl.
  pose proof (closeIdleConnections_off E s Hoff) as Hs. rewrite H0 in Hs.
  by injection Hs as ->.
Qed.

End Kept.

Lemma reserve_restores_minimum_witness :
  _minpoolsize state_two_idle.1 <= total (reserve env_ok state_two_idle).2.1.
Proof.
  apply (reserve_restores_minimum env_ok state_two_idle
           (reserve env_ok state_two_idle).2 (CbOk (record 2 (Some 1500)))).
  reflexivity.
Defined.

Lemma reserve_without_maxidle_closes_nothing_witness :
  closes (reserve env_ok state_initialized).2.2 = closes state_initialized.2.
Proof.
  apply (reserve_without_maxidle_closes_nothing env_ok state_initialized). reflexivity.
Defined.

Lemma reserve_reuses_available_witness :
  exists c rest w',
    reserve env_ok state_idle_and_fresh =
      (Done (CbOk c),
       (set_reserved (c :: _reserved state_idle_and_fresh.1)
          (set_pool rest state_idle_and_fresh.1), w')) /\
    c :: rest ≡ₚ _pool state_fresh_left.1 /\
    (forall x, x ∈ c :: rest -> x ∈ _pool state_idle_and_fresh.1) /\
    opened w' = opened state_idle_and_fresh.2 /\
    drawn w' = drawn state_idle_and_fresh.2 /\
    closes w' = closes state_fresh_left.2 /\
    (truthy (_maxidle state_idle_and_fresh.1) = false ->
     closes w' = closes state_idle_and_fresh.2).
Proof.
  apply (reserve_reuses_available env_ok state_idle_and_fresh state_fresh_left).
  - reflexivity.
  - discriminate.
  - vm_compute. discriminate.
Defined.

(** ** Capacity, round trip, keepalive *)

Section Sequences.

Variable E : Env.

Lemma release_reserved_within r s :
  r ∈ _reserved s.1 -> within_capacity s (release (VObject r) s).2.
Proof.
  intros Hr. rewrite release_object. split; [apply same_config_arrays|].
  unfold total, reject. cbn.
  assert ((length (filter (fun x => strict_eq (uuid x) (uuid r) = false) (_reserved s.1))
           < length (_reserved s.1))%nat); [|lia].
  apply (length_filter_lt _ _ r); [done|].
  unfold strict_eq. rewrite bool_decide_eq_true_2 by done. done.
Qed.

Lemma step_within_capacity o s :
  match o with
  | Release c => exists r, c = VObject r /\ r ∈ _reserved s.1
  | _ => True
  end ->
  within_capacity s (step E o s).
Proof.
  destruct o as [|c| |ms]; cbn [step].
  - intros _. apply respects_within_reserve.
  - intros (r & -> & Hr). by apply release_reserved_within.
  - intros _. apply respects_within_purge.
  - intros _. split; [apply same_config_refl|cbn; lia].
Qed.

Lemma run_within_capacity ops : forall s,
  well_behaved E ops s -> within_capacity s (run E ops s).
Proof.
  induction ops as [|o ops IH]; intros s Hwb; [apply within_capacity_refl|].
  destruct Hwb as [Ho Hwb]. cbn.
  eapply within_capacity_trans; [by apply step_within_capacity|by apply IH].
Qed.

(** X9: on a pool that was initialized once, after any sequence of
    [reserve], [purge], pauses and [release] of records that are reserved at
    that moment, the two arrays together never hold more elements than the
    larger of [_minpoolsize] and [_maxpoolsize]; so with
    [_minpoolsize <= _maxpoolsize] the reserved array never exceeds
    [_maxpoolsize]. *)
Theorem total_never_exceeds_capacity (config : Config) (w : World) (ops : list op) :
  well_behaved E ops (initialize E (new_Pool config, w)).2 ->
  total (run E ops (initialize E (new_Pool config, w)).2).1
    <= Z.max 0 (capacity (new_Pool config)) /\
  (_minpoolsize (new_Pool config) <= _maxpoolsize (new_Pool config) ->
   0 <= _maxpoolsize (new_Pool config) ->
   Z.of_nat (length (_reserved (run E ops (initialize E (new_Pool config, w)).2).1))
     <= _maxpoolsize (new_Pool config)).
Proof.
  intros Hwb.
  destruct (initialize_frame E (new_Pool config) w) as (conns & w' & Hinit & Hlen & _).
  rewrite Hinit in Hwb |- *.
  destruct (run_within_capacity ops _ Hwb) as [Hcfg Htot].
  cbn [fst snd] in Hcfg, Htot.
  rewrite (capacity_same (new_Pool config) _ (same_config_set_pool _ _)) in Htot.
  assert (H0 : total (set_pool (_pool (new_Pool config) ++ conns) (new_Pool config))
               <= Z.max 0 (capacity (new_Pool config))).
  { unfold total, capacity. cbn [_pool _reserved set_pool]. cbn [new_Pool app length].
    change (_pool (new_Pool config)) with (@nil connobj).
    change (_reserved (new_Pool config)) with (@nil connobj). cbn [app length].
    destruct Hlen as [-> | ->]; cbn [length]; lia. }
  split; [lia|]. intros Hmm Hpos. unfold total, capacity in *. lia.
Qed.

(** X10: with [_maxidle] not set, a record available, the minimum met and
    no identity twice in the pool, [reserve] followed by [release] of the
    record it handed out brings the reserved array back to what it was and
    the available array back to a permutation of what it was, with the
    record in front. *)
Theorem reserve_release_round_trip (s : State) :
  truthy (_maxidle s.1) = false ->
  _pool s.1 ≠ [] ->
  _minpoolsize s.1 <= total s.1 ->
  NoDup (uuid <$> entries s.1) ->
  exists c s1 s2,
    reserve E s = (Done (CbOk c), s1) /\
    release (VObject c) s1 = (Done (CbOk tt), s2) /\
    head (_pool s2.1) = Some c /\
    _pool s2.1 ≡ₚ _pool s.1 /\
    _reserved s2.1 = _reserved s.1.
Proof.
  intros Hoff Hne Hmin Hnd.
  destruct (reserve_from_available E s s (closeIdleConnections_off E s Hoff) Hne Hmin)
    as (c & rest & w' & Hrun & Hperm & _).
  eexists c, _, _. split; [exact Hrun|]. split; [apply release_object|].
  cbn [fst snd _pool _reserved set_pool set_reserved].
  split; [done|]. split; [done|].
  unfold reject. rewrite filter_cons_False.
  2:{ unfold strict_eq. rewrite bool_decide_eq_true_2 by done. done. }
  apply reject_none. intros x Hx. unfold strict_eq.
  apply bool_decide_eq_false_2. intros Heq.
  unfold entries in Hnd. rewrite fmap_app in Hnd.
  apply NoDup_app in Hnd as (_ & Hdisj & _). apply (Hdisj (uuid c)).
  - apply list_elem_of_fmap. exists c. split; [done|]. rewrite <- Hperm. by left.
  - rewrite <- Heq. apply list_elem_of_fmap. by exists x.
Qed.

Lemma release_world c s : (release c s).2.2 = s.2.
Proof. by destruct c as [[]| |o]; destruct s. Qed.

(** X11: a pool made with keepalive enabled has no [_maxidle], whatever
    [maxidle] the configuration gives; on such a pool [initialize] and any
    sequence of [reserve], [release] and pauses never close a connection. *)
Theorem keepalive_switches_eviction_off (config : Config) (ka : keepalive_cfg)
    (w : World) (ops : list op) :
  cfg_keepalive config = Some ka -> ka_enabled ka = true ->
  Purge ∉ ops ->
  _maxidle (new_Pool config) = None /\
  closes (run E ops (initialize E (new_Pool config, w)).2).2 = closes w.
Proof.
  intros Hka Hen Hnp.
  assert (Hnone : _maxidle (new_Pool config) = None).
  { unfold new_Pool. cbn. rewrite Hka. cbn. by rewrite Hen. }
  split; [exact Hnone|].
  destruct (initialize_frame E (new_Pool config) w) as (conns & w' & Hinit & _ & Hcl).
  rewrite Hinit, <- Hcl.
  assert (Hgen : forall s, _maxidle s.1 = None -> closes (run E ops s).2 = closes s.2).
  { clear Hinit Hcl. revert Hnp. induction ops as [|o ops' IH]; intros Hnp s Hs; [done|].
    change (run E (o :: ops') s) with (run E ops' (step E o s)).
    rewrite IH.
    - destruct o as [|c| |ms]; cbn [step snd].
      + apply reserve_closes_frame. by rewrite Hs.
      + by rewrite release_world.
      + exfalso. apply Hnp. by left.
      + done.
    - intros Hin. apply Hnp. by right.
    - destruct (step_same_config E o s) as (_ & _ & _ & _ & ->). done. }
  by apply Hgen.
Qed.

End Sequences.

Lemma total_never_exceeds_capacity_witness :
  total (run env_ok [Reserve; Reserve; Reserve; Reserve; Tick 5; Purge; Reserve]
           (initialize env_ok (new_Pool (config_2_3 None), world0)).2).1
    <= Z.max 0 (capacity (new_Pool (config_2_3 None))) /\
  (_minpoolsize (new_Pool (config_2_3 None)) <= _maxpoolsize (new_Pool (config_2_3 None)) ->
   0 <= _maxpoolsize (new_Pool (config_2_3 None)) ->
   Z.of_nat (length (_reserved
     (run env_ok [Reserve; Reserve; Reserve; Reserve; Tick 5; Purge; Reserve]
        (initialize env_ok (new_Pool (config_2_3 None), world0)).2).1))
     <= _maxpoolsize (new_Pool (config_2_3 None))).
Proof.
  apply (total_never_exceeds_capacity env_ok (config_2_3 None) world0).
  cbn. done.
Defined.

Lemma reserve_release_round_trip_witness :
  exists c s1 s2,
    reserve env_ok state_initialized = (Done (CbOk c), s1) /\
    release (VObject c) s1 = (Done (CbOk tt), s2) /\
    head (_pool s2.1) = Some c /\
    _pool s2.1 ≡ₚ _pool state_initialized.1 /\
    _reserved s2.1 = _reserved state_initialized.1.
Proof.
  apply (reserve_release_round_trip env_ok state_initialized).
  - reflexivity.
  - discriminate.
  - vm_compute. discriminate.
  - cbn. repeat (apply NoDup_cons; split;
      [intros H; repeat (apply elem_of_cons in H as [H | H]; [discriminate|]);
       by apply elem_of_nil in H|]).
    constructor.
Defined.

Lemma keepalive_switches_eviction_off_witness :
  _maxidle (new_Pool config_keepalive) = None /\
  closes (run env_ok [Reserve; Tick 5000; Reserve; Release (VObject (record 0 None))]
            (initialize env_ok (new_Pool config_keepalive, world0)).2).2
    = closes world0.
Proof.
  apply (keepalive_switches_eviction_off env_ok config_keepalive
           {| ka_interval := 1000; ka_query := "select 1"; ka_enabled := true |}).
  - reflexivity.
  - reflexivity.
  - intros H. repeat (apply elem_of_cons in H as [H | H]; [discriminate|]).
    by apply elem_of_nil in H.
Defined.

(** ** Idle eviction: failures and survivors *)

Section EvictionMore.

Variable E : Env.

(** The loop passes over elements that are not expired. *)
Lemma closeIdleLoop_skip cutoff (back : list connobj) : forall front rest p w,
  _pool p = front ++ back ++ rest ->
  (forall x, x ∈ back -> ~ expired cutoff x) ->
  closeIdleLoop E (length front + length back) cutoff (p, w) =
  closeIdleLoop E (length front) cutoff (p, w).
Proof.
  induction back as [|x b IH] using rev_ind; intros front rest p w Hp Hback.
  - cbn. by rewrite Nat.add_0_r.
  - rewrite length_app. cbn [length].
    replace (length front + (length b + 1))%nat with (S (length front + length b)) by lia.
    cbn [closeIdleLoop]. rewrite (mbind_done _ _ _ _ _ (getp_run _)). cbn [fst].
    assert (Hx : _pool p !! (length front + length b)%nat = Some x).
    { rewrite Hp, lookup_app_r by lia.
      replace (length front + length b - length front)%nat with (length b) by lia.
      rewrite <- !app_assoc. rewrite lookup_app_r by lia.
      by rewrite Nat.sub_diag. }
    rewrite Hx.
    assert (Hnx : ~ expired cutoff x) by (apply Hback, elem_of_app; right; by left).
    assert (Hbody :
      (if bool_decide (conn x ≠ ConnNull)
       then if js_lt (lastIdle x) cutoff
            then close_conn E (conn x) true;; splice_pool (length front + length b)
            else mret tt
       else mret tt) (p, w) = (Done tt, (p, w))).
    { case_bool_decide as Hnn; [|done].
      destruct (js_lt (lastIdle x) cutoff) eqn:Hlt; [|done].
      exfalso. apply Hnx. by split. }
    rewrite (mbind_done _ _ _ _ _ Hbody).
    apply (IH front ([x] ++ rest)).
    + by rewrite Hp, <- !app_assoc.
    + intros y Hy. apply Hback, elem_of_app. by left.
Qed.

(** X12: when the last idle record of the available array is reached and
    its [close] reports an error before returning, the eviction stops with
    that error: [reserve] throws it without calling back, and both arrays
    are exactly as before the call, the record whose close failed
    included. *)
Theorem eviction_close_failure_aborts_reserve
    (s : State) (m : Z) (front back : list connobj) (c : connobj) (h : handle) :
  _maxidle s.1 = Some m -> m ≠ 0 ->
  _pool s.1 = front ++ c :: back ->
  (forall x, x ∈ back -> ~ idle_before (now s.2 - m) x) ->
  idle_before (now s.2 - m) c ->
  conn c = ConnObj h ->
  close_result E (length (closes s.2)) h = FailsNow ->
  _closeIdleConnections E s = (Throw (CloseError h), (s.1, log_close h s.2)) /\
  reserve E s = (Throw (CloseError h), (s.1, log_close h s.2)).
Proof.
  intros Hm Hm0 Hp Hback Hc Hconn Hfail.
  assert (Hev : _closeIdleConnections E s = (Throw (CloseError h), (s.1, log_close h s.2))).
  { destruct s as [p w]. cbn [fst snd] in *. unfold _closeIdleConnections.
    rewrite (mbind_done _ _ _ _ _ (getp_run _)). cbn [fst snd]. rewrite Hm.
    replace (truthy (Some m)) with true
      by (unfold truthy; symmetry; apply negb_true_iff, Z.eqb_neq; done).
    unfold closeIdleConnectionsInArray, getTime.
    rewrite (mbind_done _ _ _ _ _ (mbind_done _ _ _ _ _ (getw_run _))).
    rewrite (mbind_done _ _ _ _ _ (getp_run _)). cbn [fst snd].
    rewrite Hp, length_app. cbn [length].
    replace (length front + S (length back))%nat
      with (length (front ++ [c]) + length back)%nat by (rewrite length_app; cbn; lia).
    rewrite (closeIdleLoop_skip (now w - m) back (front ++ [c]) [] p w).
    2:{ by rewrite Hp, app_nil_r, <- app_assoc. }
    2:{ intros x Hx [_ Hlt]. apply (Hback x Hx). by apply js_lt_idle_before. }
    rewrite length_app. cbn [length].
    replace (length front + 1)%nat with (S (length front)) by lia.
    cbn [closeIdleLoop]. rewrite (mbind_done _ _ _ _ _ (getp_run _)). cbn [fst].
    assert (Hx : _pool p !! length front = Some c).
    { rewrite Hp, lookup_app_r by lia. by rewrite Nat.sub_diag. }
    rewrite Hx, Hconn. rewrite bool_decide_eq_true_2 by done.
    apply js_lt_idle_before in Hc. rewrite Hc.
    apply mbind_throw. apply mbind_throw.
    unfold close_conn. mstep. by rewrite Hfail. }
  split; [exact Hev|]. rewrite reserve_stages. by apply mbind_throw.
Qed.

(** Elements that are not expired stay in [_pool], whatever the closes do. *)
Lemma closeIdleLoop_survivors (n : nat) (cutoff : Z) : forall s x,
  x ∈ _pool s.1 -> ~ expired cutoff x ->
  x ∈ _pool (closeIdleLoop E n cutoff s).2.1.
Proof.
  induction n as [|i IH]; intros [p w] x Hx Hnx; [done|].
  cbn [closeIdleLoop]. mstep.
  destruct (_pool p !! i) as [c|] eqn:Hc; [|by apply IH].
  case_bool_decide as Hnn; [|by apply IH].
  destruct (js_lt (lastIdle c) cutoff) eqn:Hlt; [|by apply IH].
  destruct (close_conn_rethrow_frame E (conn c) (p, w)) as [Hp _].
  destruct (close_conn E (conn c) true (p, w)) as [[u|e] [p1 w1]] eqn:Hclose;
    cbn [fst snd] in *; subst p1; [|done].
  unfold splice_pool. mstep. apply IH; [|done]. cbn.
  assert (x ≠ c) by (intros ->; apply Hnx; by split).
  pose proof (delete_Permutation _ _ _ Hc) as Hperm. rewrite Hperm in Hx.
  apply elem_of_cons in Hx as [? | ?]; done.
Qed.

Lemma closeIdleConnections_survivors s x :
  x ∈ _pool s.1 ->
  (forall m, _maxidle s.1 = Some m -> ~ idle_before (now s.2 - m) x) ->
  x ∈ _pool (_closeIdleConnections E s).2.1.
Proof.
  destruct s as [p w]. cbn [fst snd]. intros Hx Hfresh. unfold _closeIdleConnections.
  rewrite (mbind_done _ _ _ _ _ (getp_run _)). cbn [fst snd].
  destruct (_maxidle p) as [m|] eqn:Hm; [|done].
  destruct (truthy (Some m)); [|done].
  unfold closeIdleConnectionsInArray, getTime.
  rewrite (mbind_done _ _ _ _ _ (mbind_done _ _ _ _ _ (getw_run _))).
  rewrite (mbind_done _ _ _ _ _ (getp_run _)). cbn [fst snd].
  apply closeIdleLoop_survivors; [done|].
  intros [_ Hlt]. apply (Hfresh m eq_refl). by apply js_lt_idle_before.
Qed.

(** After the eviction, nothing leaves the two arrays. *)
Lemma respects_entries_rest :
  respects (fun s s' => forall x, x ∈ entries s.1 -> x ∈ entries s'.1)
           (shuffle E;; topUpToMin E;; handOut E).
Proof.
  apply respects_bind; [by eauto| |intros _].
  { intros s x. destruct (shuffle_spec E s) as (l' & w' & -> & H2 & _).
    unfold entries. cbn. by rewrite H2. }
  apply respects_bind; [by eauto| |intros _].
  { intros [p w] x. destruct (topUpToMin_frame E p w) as (news & -> & _).
    unfold entries. cbn. rewrite !elem_of_app. tauto. }
  intros [p w] x.
  destruct (handOut_cases E p w) as [(c & rest & Hp & ->) | [(c & w' & Hp & Hlt & -> & _)
    | (e & w' & Hp & -> & _)]]; unfold entries; cbn; [|rewrite Hp|done].
  - rewrite Hp, !elem_of_app, !elem_of_cons. tauto.
  - rewrite !elem_of_app, !elem_of_cons. tauto.
Qed.

(** X13: [reserve] never loses a connection that is not idle: a reserved
    record, and an available record whose [lastIdle] is not below
    [now - _maxidle] (every available record when [_maxidle] is not set), is
    still in one of the two arrays after [reserve], however it ends. *)
Theorem reserve_keeps_records_that_are_not_idle (s : State) (x : connobj) :
  x ∈ _reserved s.1 \/
  (x ∈ _pool s.1 /\
   forall m, _maxidle s.1 = Some m -> ~ idle_before (now s.2 - m) x) ->
  x ∈ entries (reserve E s).2.1.
Proof.
  intros Hx.
  assert (HA : x ∈ entries (_closeIdleConnections E s).2.1).
  { unfold entries. apply elem_of_app. destruct Hx as [Hr | [Hp Hfresh]].
    - right. destruct (closeIdleConnections_frame E s) as (l' & -> & _). done.
    - left. by apply closeIdleConnections_survivors. }
  rewrite reserve_stages.
  destruct (mbind_snd (_closeIdleConnections E)
              (fun _ => shuffle E;; topUpToMin E;; handOut E) s) as [-> | [a ->]];
    [done|].
  by apply respects_entries_rest.
Qed.

End EvictionMore.

Lemma eviction_close_failure_aborts_reserve_witness :
  _closeIdleConnections env_close_fails state_last_idle =
    (Throw (CloseError 0%nat), (state_last_idle.1, log_close 0%nat state_last_idle.2)) /\
  reserve env_close_fails state_last_idle =
    (Throw (CloseError 0%nat), (state_last_idle.1, log_close 0%nat state_last_idle.2)).
Proof.
  apply (eviction_close_failure_aborts_reserve env_close_fails state_last_idle 1000
           [record 1 (Some 1000)] [] (record 0 (Some 0)) 0%nat).
  - reflexivity.
  - discriminate.
  - reflexivity.
  - intros x Hx. by apply elem_of_nil in Hx.
  - exists 0. split; [reflexivity|]. cbn. lia.
  - reflexivity.
  - reflexivity.
Defined.

Lemma reserve_keeps_records_that_are_not_idle_witness :
  record 1 (Some 1000) ∈ entries (reserve env_ok state_two_idle).2.1.
Proof.
  apply (reserve_keeps_records_that_are_not_idle env_ok state_two_idle).
  right. split.
  - right. by left.
  - intros m [= <-] (t & [= <-] & Hlt). cbn in Hlt. lia.
Defined.

(** ** status *)

Section StatusReport.

Variable P : Probes.
Hypothesis probes_answer : forall h,
  is_Some (isClosedSync P h) /\ is_Some (isReadOnlySync P h) /\
  is_Some (isValidSync P h 1000).

Lemma connStatus_pooled (pool : list connobj) : forall acc,
  pooled pool ->
  exists l,
    connStatus P acc pool = Reported (acc ++ l) /\
    st_uuid <$> l = uuid <$> pool.
Proof.
  induction pool as [|c pool IH]; intros acc Hp.
  - exists []. by rewrite app_nil_r.
  - destruct (Hp c) as [h Hh]; [by left|].
    destruct (probes_answer h) as ([b1 H1] & [b2 H2] & [b3 H3]).
    cbn [connStatus]. rewrite Hh, H1, H2, H3.
    destruct (IH (acc ++ [{| st_uuid := uuid c; st_closed := b1;
                             st_readonly := b2; st_valid := b3 |}]))
      as (l & Hrun & Hl).
    { intros x Hx. apply Hp. by right. }
    eexists (_ :: l). rewrite Hrun, <- app_assoc. split; [done|]. cbn. by rewrite Hl.
Qed.

Lemma connStatus_type_error (pool : list connobj) : forall acc c,
  c ∈ pool -> (forall h, conn c ≠ ConnObj h) ->
  connStatus P acc pool = ProbeTypeError.
Proof.
  induction pool as [|x pool IH]; intros acc c Hc Hbad.
  - by apply elem_of_nil in Hc.
  - cbn [connStatus]. destruct (conn x) as [| |h] eqn:Hx; [done|done|].
    destruct (probes_answer h) as ([b1 H1] & [b2 H2] & [b3 H3]).
    rewrite H1, H2, H3. apply (IH _ c); [|done].
    apply elem_of_cons in Hc as [-> | Hc]; [|done]. by apply Hbad in Hx.
Qed.

Lemma connStatus_ends (pool : list connobj) : forall acc,
  connStatus P acc pool = ProbeTypeError \/ exists l, connStatus P acc pool = Reported l.
Proof.
  induction pool as [|x pool IH]; intros acc; [right; by eexists|].
  cbn [connStatus]. destruct (conn x) as [| |h]; [by left|by left|].
  destruct (probes_answer h) as ([b1 H1] & [b2 H2] & [b3 H3]).
  rewrite H1, H2, H3. apply IH.
Qed.

(** X14: when the probes answer, [status] reports the lengths of the two
    arrays and one entry per element, in array order and with the element's
    [uuid], provided every element wraps a connection; when some element of
    either array has [null] or nothing as its [conn], [status] throws a
    TypeError instead of calling back. *)
Theorem status_reports_or_throws (p : Pool) :
  (pooled (entries p) ->
   exists r,
     status_report P p = Reported r /\
     r_available r = length (_pool p) /\ r_reserved r = length (_reserved p) /\
     st_uuid <$> r_pool r = uuid <$> _pool p /\
     st_uuid <$> r_rpool r = uuid <$> _reserved p) /\
  (forall c, c ∈ entries p -> (forall h, conn c ≠ ConnObj h) ->
     status_report P p = ProbeTypeError).
Proof.
  split.
  - intros Hp.
    destruct (connStatus_pooled (_pool p) []) as (l1 & H1 & Hu1).
    { intros c Hc. apply Hp, elem_of_app. by left. }
    destruct (connStatus_pooled (_reserved p) []) as (l2 & H2 & Hu2).
    { intros c Hc. apply Hp, elem_of_app. by right. }
    unfold status_report. rewrite H1, H2. eexists. split; [reflexivity|]. done.
  - intros c Hc Hbad. unfold status_report.
    apply elem_of_app in Hc as [Hc | Hc].
    + by rewrite (connStatus_type_error _ [] c Hc Hbad).
    + destruct (connStatus_ends (_pool p) []) as [-> | [l ->]]; [done|].
      by rewrite (connStatus_type_error _ [] c Hc Hbad).
Qed.

End StatusReport.

Lemma status_reports_or_throws_witness :
  (exists r,
     status_report probes_ok state_initialized.1 = Reported r /\
     r_available r = 2%nat /\ r_reserved r = 0%nat /\
     st_uuid <$> r_pool r = [PStr "#"; PStr "i#"] /\
     st_uuid <$> r_rpool r = []) /\
  status_report probes_ok (set_reserved [empty_object] state_initialized.1)
    = ProbeTypeError.
Proof.
  assert (Hp : forall h, is_Some (isClosedSync probes_ok h) /\
                         is_Some (isReadOnlySync probes_ok h) /\
                         is_Some (isValidSync probes_ok h 1000))
    by (intros h; repeat split; by eexists).
  split.
  - destruct (status_reports_or_throws probes_ok Hp state_initialized.1) as [H _].
    apply H. intros c Hc. cbn in Hc.
    repeat (apply elem_of_cons in Hc as [-> | Hc]; [eexists; reflexivity|]).
    by apply elem_of_nil in Hc.
  - destruct (status_reports_or_throws probes_ok Hp
                (set_reserved [empty_object] state_initialized.1)) as [_ H].
    apply (H empty_object); [|discriminate].
    apply elem_of_app. right. by left.
Defined.

(** ** purge and elements without a connection *)

Section PurgeMore.

Variable E : Env.

Lemma closeAll_stops (front back : list connobj) (c : connobj) : forall s,
  (forall x, x ∈ front -> conn x ≠ ConnUndefined) ->
  conn c = ConnUndefined ->
  closeAll E (front ++ c :: back) s =
  (Throw TypeError, (s.1, log_closes (handles front) s.2)).
Proof.
  induction front as [|x front IH]; intros [p w] Hfront Hc.
  - cbn [app closeAll]. apply mbind_throw.
    rewrite Hc, bool_decide_eq_true_2 by done. done.
  - cbn [app closeAll].
    assert (Hx : conn x ≠ ConnUndefined) by (apply Hfront; left).
    assert (Hrest : forall y, y ∈ front -> conn y ≠ ConnUndefined)
      by (intros y Hy; apply Hfront; by right).
    destruct (conn x) as [| |h] eqn:Hconn; [done| |].
    + rewrite bool_decide_eq_false_2 by (intros ?; done).
      rewrite (mbind_done _ _ _ _ _ (mret_run _ _)).
      rewrite IH by done. unfold handles. cbn. by rewrite Hconn.
    + rewrite bool_decide_eq_true_2 by done.
      rewrite (mbind_done _ _ _ _ _ (close_conn_swallow E h (p, w))). cbn [fst snd].
      rewrite IH by done. unfold handles. cbn. by rewrite Hconn.
Qed.

(** X15: when an element of the two arrays has no [conn] at all (an object
    that [release] accepted, say), [purge] throws a TypeError on reaching
    it: the connections before it got their close attempt, those after it
    got none, and both arrays are left as they were instead of being
    emptied. *)
Theorem purge_stops_at_element_without_conn
    (s : State) (front back : list connobj) (c : connobj) :
  _pool s.1 ++ _reserved s.1 = front ++ c :: back ->
  (forall x, x ∈ front -> conn x ≠ ConnUndefined) ->
  conn c = ConnUndefined ->
  purge E s = (Throw TypeError, (s.1, log_closes (handles front) s.2)) /\
  closes (purge E s).2.2 = closes s.2 ++ handles front.
Proof.
  intros Hsplit Hfront Hc.
  assert (Hrun : purge E s = (Throw TypeError, (s.1, log_closes (handles front) s.2))).
  { unfold purge. rewrite (mbind_done _ _ _ _ _ (getp_run _)). cbn zeta.
    apply mbind_throw. rewrite Hsplit. by apply closeAll_stops. }
  split; [exact Hrun|]. rewrite Hrun. apply closes_log_closes.
Qed.

End PurgeMore.

Lemma purge_stops_at_element_without_conn_witness :
  purge env_ok (set_pool [record 0 None; empty_object; record 1 None]
                  (new_Pool (config_2_3 None)), world0)
    = (Throw TypeError,
       (set_pool [record 0 None; empty_object; record 1 None] (new_Pool (config_2_3 None)),
        log_closes (handles [record 0 None]) world0)) /\
  closes (purge env_ok (set_pool [record 0 None; empty_object; record 1 None]
                          (new_Pool (config_2_3 None)), world0)).2.2
    = closes world0 ++ handles [record 0 None].
Proof.
  apply (purge_stops_at_element_without_conn env_ok
           (set_pool [record 0 None; empty_object; record 1 None]
              (new_Pool (config_2_3 None)), world0)
           [record 0 None] [record 1 None] empty_object).
  - reflexivity.
  - intros x Hx. apply elem_of_cons in Hx as [-> | Hx]; [discriminate|].
    by apply elem_of_nil in Hx.
  - reflexivity.
Defined.
